(** * dbcontrol: admission control in front of database/sql

    A shallow embedding of the Go package [dbcontrol] (files limit.go and
    the latest revision of sql.go) and the proofs of its token discipline.

    Layout of the development:
    - [Sql]: the interface of the underlying [database/sql] client, which the
      package only calls and never implements;
    - [SetConcurrency], [Concurrency], [Open], [MaxConns]: the package-level
      setting and pool creation;
    - [go]: the programs a goroutine runs, written over the primitive
      operations the source performs on the pool (channel operations on
      [db.sem], the locked sections, the timer goroutine, calls into
      [database/sql]);
    - [run]: sequential execution of one call; [step], [exec]: interleaved
      execution of a pool of goroutines;
    - [conn] and the handle shims [Rows], [Row], [Stmt], [Tx];
    - the theorems, each followed further down by its instance on a
      scripted client, [Mock]. *)

From Stdlib Require Import String ZArith List Bool Lia Permutation.
Import ListNotations.
Open Scope Z_scope.

Set Implicit Arguments.

(** ** The underlying database client

    [database/sql] is an external collaborator.  Its handles are abstract
    types and its methods are functions from a handle to a result and the
    handle's next state.  A Go result pair [(ptr, err)] is a pair of options:
    [None] is [nil]. *)

Class Sql : Type := {
  error : Type;
  arg : Type;                       (* interface{} *)
  sqlDB : Type;                     (* sql.DB *)
  sqlRows : Type;                   (* sql.Rows *)
  sqlRow : Type;                    (* sql.Row *)
  sqlStmt : Type;                   (* sql.Stmt *)
  sqlTx : Type;                     (* sql.Tx *)
  sqlResult : Type;                 (* sql.Result *)
  sql_Open : string -> string -> sqlDB + error;   (* a handle or an error *)
  sqlDB_SetMaxIdleConns : sqlDB -> Z -> sqlDB;
  sqlDB_Ping : sqlDB -> option error * sqlDB;
  sqlDB_Exec : string -> list arg -> sqlDB -> (option sqlResult * option error) * sqlDB;
  sqlDB_Query : string -> list arg -> sqlDB -> (option sqlRows * option error) * sqlDB;
  sqlDB_QueryRow : string -> list arg -> sqlDB -> option sqlRow * sqlDB;
  sqlDB_Prepare : string -> sqlDB -> (option sqlStmt * option error) * sqlDB;
  sqlDB_Begin : sqlDB -> (option sqlTx * option error) * sqlDB;
  sqlRows_Next : sqlRows -> bool * sqlRows;
  sqlRows_Err : sqlRows -> option error;
  sqlRows_Close : sqlRows -> option error * sqlRows;
  sqlRow_Scan : list arg -> sqlRow -> option error * sqlRow;
  sqlStmt_Close : sqlStmt -> option error * sqlStmt;
  sqlStmt_Exec : list arg -> sqlStmt -> (option sqlResult * option error) * sqlStmt;
  sqlStmt_Query : list arg -> sqlStmt -> (option sqlRows * option error) * sqlStmt;
  sqlStmt_QueryRow : list arg -> sqlStmt -> option sqlRow * sqlStmt;
  sqlTx_Commit : sqlTx -> option error * sqlTx;
  sqlTx_Rollback : sqlTx -> option error * sqlTx;
  sqlTx_Exec : string -> list arg -> sqlTx -> (option sqlResult * option error) * sqlTx;
  sqlTx_Prepare : string -> sqlTx -> (option sqlStmt * option error) * sqlTx;
  sqlTx_Query : string -> list arg -> sqlTx -> (option sqlRows * option error) * sqlTx;
  sqlTx_QueryRow : string -> list arg -> sqlTx -> option sqlRow * sqlTx;
  sqlTx_Stmt : option sqlStmt -> sqlTx -> option sqlStmt * sqlTx
}.

(** A scripted client, to run the model on concrete inputs.  A handle of
    the pool is [true] while its server answers; the query text ["bad"] is
    rejected; a cursor is the number of rows left and the error that ends
    the iteration early, if any; a single-row cursor carries its deferred
    error, which [Scan] returns. *)
Definition mock_query (q : string) (broken : bool) : option string :=
  if broken then Some "bad connection"%string
  else if String.eqb q "bad" then Some "syntax error"%string
  else None.

Definition mock_rows (q : string) (broken : bool) : option (nat * option string) :=
  match mock_query q broken with
  | Some _ => None
  | None => Some (String.length q, None)
  end.

Definition mock_stmt (q : string) (broken : bool) : option string :=
  match mock_query q broken with
  | Some _ => None
  | None => Some q
  end.

Definition Mock : Sql := {|
  error := string;
  arg := Z;
  sqlDB := bool;
  sqlRows := nat * option string;
  sqlRow := option string;
  sqlStmt := string;
  sqlTx := nat;
  sqlResult := Z;
  sql_Open := fun driver dsn =>
    if String.eqb driver "mock" then inl (negb (String.eqb dsn "down"))
    else inr "unknown driver"%string;
  sqlDB_SetMaxIdleConns := fun s _ => s;
  sqlDB_Ping := fun s => (mock_query "" (negb s), s);
  sqlDB_Exec := fun q _ s =>
    ((match mock_query q (negb s) with Some _ => None | None => Some 0 end,
      mock_query q (negb s)), s);
  sqlDB_Query := fun q _ s => ((mock_rows q (negb s), mock_query q (negb s)), s);
  sqlDB_QueryRow := fun q _ s => (Some (mock_query q (negb s)), s);
  sqlDB_Prepare := fun q s => ((mock_stmt q (negb s), mock_query q (negb s)), s);
  sqlDB_Begin := fun s =>
    ((if s then Some O else None, mock_query "" (negb s)), s);
  sqlRows_Next := fun r =>
    match fst r with
    | O => (false, r)
    | S n => (true, (n, snd r))
    end;
  sqlRows_Err := fun r => match fst r with O => snd r | S _ => None end;
  sqlRows_Close := fun r => (None, (O, None));
  sqlRow_Scan := fun _ r => (r, r);
  sqlStmt_Close := fun st => (None, st);
  sqlStmt_Exec := fun _ st =>
    ((match mock_query st false with Some _ => None | None => Some 0 end,
      mock_query st false), st);
  sqlStmt_Query := fun _ st => ((mock_rows st false, mock_query st false), st);
  sqlStmt_QueryRow := fun _ st => (Some (mock_query st false), st);
  sqlTx_Commit := fun t => (None, t);
  sqlTx_Rollback := fun t => (None, t);
  sqlTx_Exec := fun q _ t =>
    ((match mock_query q false with Some _ => None | None => Some 0 end,
      mock_query q false), S t);
  sqlTx_Prepare := fun q t => ((mock_stmt q false, mock_query q false), t);
  sqlTx_Query := fun q _ t => ((mock_rows q false, mock_query q false), S t);
  sqlTx_QueryRow := fun q _ t => (Some (mock_query q false), S t);
  sqlTx_Stmt := fun st t => (st, t)
|}.

(** ** Channels and the pool object *)

(** [chan bool] with a buffer: [make(chan bool, c)].  A receive needs a
    buffered value, a send needs room; otherwise the goroutine parks. *)
Record Chan : Type := mkChan {
  cap : nat;
  buf : list bool
}.

Definition chan_make (c : Z) : Chan := mkChan (Z.to_nat c) [].

Definition chan_send (v : bool) (ch : Chan) : option Chan :=
  if (length (buf ch) <? cap ch)%nat
  then Some (mkChan (cap ch) (buf ch ++ [v]))
  else None.

Definition chan_recv (ch : Chan) : option (bool * Chan) :=
  match buf ch with
  | v :: rest => Some (v, mkChan (cap ch) rest)
  | [] => None
  end.

(** The report channels ([chan<- time.Duration], [chan<- string]) are named
    by a number; [None] is the nil channel. *)
Definition chanref := nat.

Section Model.

Context {sql : Sql}.

(** [type DB struct] of limit.go.  The two mutexes guard [blockCh] and the
    usage-timeout pair; their critical sections are the atomic primitives
    below. *)
Record DB : Type := mkDB {
  DB_ : sqlDB;                      (* the embedded *sql.DB *)
  maxConns : Z;
  sem : option Chan;
  blockCh : option chanref;
  usageTimeout : Z;
  usageTimeoutCh : option chanref
}.

(** *** limit.go: the package-level concurrency setting *)

Record Package : Type := mkPackage {
  concurrency : Z;
  pools : list DB                   (* the pools opened so far, by address *)
}.

Definition SetConcurrency (count : Z) (pkg : Package) : Package :=
  if 0 <? count
  then mkPackage count (pools pkg)
  else mkPackage 0 (pools pkg).

Definition Concurrency (pkg : Package) : Z := concurrency pkg.

(** [for i := 0; i < c; i++ { db.sem <- true }] *)
Fixpoint feed (n : nat) (ch : Chan) : Chan :=
  match n with
  | O => ch
  | S n' =>
      match chan_send true ch with
      | Some ch' => feed n' ch'
      | None => ch                  (* would park: never the case below cap *)
      end
  end.

(** The pool object [Open] builds from the underlying handle. *)
Definition newDB (sqldb : sqlDB) (c : Z) : DB :=
  if 0 <? c
  then mkDB (sqlDB_SetMaxIdleConns sqldb c) c
            (Some (feed (Z.to_nat c) (chan_make c))) None 0 None
  else mkDB sqldb 0 None None 0 None.

(** [Open] returns the address of the new pool (its index in [pools]). *)
Definition Open (driver dsn : string) (pkg : Package)
  : (option nat * option error) * Package :=
  match sql_Open driver dsn with
  | inr err => ((None, Some err), pkg)
  | inl sqldb =>
      let db := newDB sqldb (Concurrency pkg) in
      ((Some (length (pools pkg)), None),
       mkPackage (concurrency pkg) (pools pkg ++ [db]))
  end.

Definition MaxConns (db : DB) : Z := maxConns db.

(** ** The world a goroutine acts on

    One pool object together with what its operations leave behind outside
    of it: the clock, the history of [db.sem], the durations sent on block
    channels, the timer goroutines started by [conn], the channels closed. *)

Inductive SemEvent : Type :=
| TokenTaken                        (* a receive from db.sem completed *)
| TokenReturned.                    (* a send on db.sem completed *)

(** The goroutine [conn] starts with its [cancelTimeoutCh]: [cancelled] is
    set once that channel has been sent to and closed.  The expiry of the
    timer only sends a diagnostic on [db.usageTimeoutCh]; it changes nothing
    a call on the pool can see and is left out. *)
Record Timer : Type := mkTimer {
  duration : Z;
  cancelled : bool
}.

Record World : Type := mkWorld {
  db : DB;
  now : Z;                          (* time.Now() *)
  hist : list SemEvent;
  blockReports : list (chanref * Z);
  timers : list Timer;
  closedChs : list chanref
}.

Definition with_db (f : DB -> DB) (w : World) : World :=
  mkWorld (f (db w)) (now w) (hist w) (blockReports w) (timers w) (closedChs w).

Definition with_sem (ch : Chan) (d : DB) : DB :=
  mkDB (DB_ d) (maxConns d) (Some ch) (blockCh d) (usageTimeout d) (usageTimeoutCh d).

Definition with_sql (s : sqlDB) (d : DB) : DB :=
  mkDB s (maxConns d) (sem d) (blockCh d) (usageTimeout d) (usageTimeoutCh d).

Definition log (ev : SemEvent) (w : World) : World :=
  mkWorld (db w) (now w) (hist w ++ [ev]) (blockReports w) (timers w) (closedChs w).

Definition advance (d : Z) (w : World) : World :=
  mkWorld (db w) (now w + d) (hist w) (blockReports w) (timers w) (closedChs w).

Definition init_world (d : DB) : World := mkWorld d 0 [] [] [] [].

(** Tokens in the buffer of [db.sem]; tokens taken and not yet returned. *)
Definition available (w : World) : Z :=
  match sem (db w) with
  | Some ch => Z.of_nat (length (buf ch))
  | None => 0
  end.

Fixpoint balance (h : list SemEvent) : Z :=
  match h with
  | [] => 0
  | TokenTaken :: h' => balance h' + 1
  | TokenReturned :: h' => balance h' - 1
  end.

Definition outstanding (w : World) : Z := balance (hist w).

(** *** The primitive operations on the world

    For the channel operations [None] means that the goroutine parks. *)

(** [<-db.sem]; a nil channel never delivers. *)
Definition sem_recv (w : World) : option World :=
  match sem (db w) with
  | None => None
  | Some ch =>
      match chan_recv ch with
      | Some (_, ch') => Some (log TokenTaken (with_db (with_sem ch') w))
      | None => None
      end
  end.

(** [db.sem <- true]; a nil channel never accepts. *)
Definition sem_send (w : World) : option World :=
  match sem (db w) with
  | None => None
  | Some ch =>
      match chan_send true ch with
      | Some ch' => Some (log TokenReturned (with_db (with_sem ch') w))
      | None => None
      end
  end.

(** Another goroutine's [db.sem <- true] met by this goroutine's parked
    [<-db.sem] after [d]: the token passes through the channel, whose buffer
    is empty before and after. *)
Definition handed_over (d : Z) (w : World) : World :=
  log TokenTaken (log TokenReturned (advance d w)).

(** In [conn]: [RLock; if db.blockCh != nil { db.blockCh <-
    time.Now().Sub(start) }; RUnlock].  The channel is taken to be open and
    drained by a reader, so the send completes. *)
Definition report_block (start : Z) (w : World) : World :=
  match blockCh (db w) with
  | None => w
  | Some c =>
      mkWorld (db w) (now w) (hist w)
              (blockReports w ++ [(c, now w - start)])
              (timers w) (closedChs w)
  end.

(** In [conn]: a fresh [cancelTimeoutCh := make(chan struct{}, 1)], the
    stack, and the goroutine racing [time.After(usageTimeout)] against the
    channel.  The result names the timer. *)
Definition go_timer (d : Z) (w : World) : nat * World :=
  (length (timers w),
   mkWorld (db w) (now w) (hist w) (blockReports w)
           (timers w ++ [mkTimer d false]) (closedChs w)).

Fixpoint mark_cancelled (id : nat) (l : list Timer) : option (list Timer) :=
  match l, id with
  | [], _ => None
  | t :: l', O => if cancelled t then None else Some (mkTimer (duration t) true :: l')
  | t :: l', S id' =>
      match mark_cancelled id' l' with
      | Some l'' => Some (t :: l'')
      | None => None
      end
  end.

(** [cancelTimeoutCh <- struct{}{}; close(cancelTimeoutCh)].  The buffer
    of one takes the first send; a second call sends on a closed channel and
    panics ([None]). *)
Definition cancel_timer (id : nat) (w : World) : option World :=
  match mark_cancelled id (timers w) with
  | Some l => Some (mkWorld (db w) (now w) (hist w) (blockReports w) l (closedChs w))
  | None => None
  end.

(** *** sql.go: the two setters, each one critical section *)

(** [SetBlockDurationCh]: closes the previous channel, if any. *)
Definition SetBlockDurationCh (c : option chanref) (w : World) : World :=
  let d := db w in
  let d' := mkDB (DB_ d) (maxConns d) (sem d) c (usageTimeout d) (usageTimeoutCh d) in
  match blockCh d with
  | Some old =>
      mkWorld d' (now w) (hist w) (blockReports w) (timers w) (old :: closedChs w)
  | None => mkWorld d' (now w) (hist w) (blockReports w) (timers w) (closedChs w)
  end.

Definition SetUsageTimeout (c : option chanref) (timeout : Z) (d : DB) : DB :=
  match c with
  | Some _ => mkDB (DB_ d) (maxConns d) (sem d) (blockCh d) timeout c
  | None => mkDB (DB_ d) (maxConns d) (sem d) (blockCh d) 0 c
  end.

(** ** Goroutine programs

    A program is a tree of the primitive operations above; the continuation
    of each receives the operation's result.  The methods of the package are
    written in this language, statement by statement. *)

Inductive go (A : Type) : Type :=
| Ret (a : A)
| Panic
| SemIsNil (k : bool -> go A)       (* db.sem == nil *)
| SelectRecv (k : bool -> go A)     (* select { case <-db.sem: default: } *)
| Recv (k : go A)                   (* <-db.sem *)
| Send (k : go A)                   (* db.sem <- true *)
| TimeNow (k : Z -> go A)           (* time.Now() *)
| ReportBlock (start : Z) (k : go A) (* the report under blockChMux *)
| ReadUsageTimeout (k : Z -> go A)  (* RLock; usageTimeout := db.usageTimeout; RUnlock *)
| GoTimer (d : Z) (k : nat -> go A) (* make(chan struct{}, 1); go func() {...}() *)
| CancelTimer (id : nat) (k : go A) (* cancelTimeoutCh <- struct{}{}; close(...) *)
| CallSetBlockDurationCh (c : option chanref) (k : go A)
| CallSetUsageTimeout (c : option chanref) (timeout : Z) (k : go A)
| CallSql (X : Type) (f : sqlDB -> X * sqlDB) (k : X -> go A).  (* db.DB.f(...) *)

Arguments Panic {A}.
Arguments CallSql {A X} f k.

Fixpoint bind {A B : Type} (m : go A) (f : A -> go B) : go B :=
  match m with
  | Ret a => f a
  | Panic => Panic
  | SemIsNil k => SemIsNil (fun b => bind (k b) f)
  | SelectRecv k => SelectRecv (fun b => bind (k b) f)
  | Recv k => Recv (bind k f)
  | Send k => Send (bind k f)
  | TimeNow k => TimeNow (fun t => bind (k t) f)
  | ReportBlock start k => ReportBlock start (bind k f)
  | ReadUsageTimeout k => ReadUsageTimeout (fun t => bind (k t) f)
  | GoTimer d k => GoTimer d (fun id => bind (k id) f)
  | CancelTimer id k => CancelTimer id (bind k f)
  | CallSetBlockDurationCh c k => CallSetBlockDurationCh c (bind k f)
  | CallSetUsageTimeout c t k => CallSetUsageTimeout c t (bind k f)
  | CallSql g k => CallSql g (fun x => bind (k x) f)
  end.

Notation "x <- m ;; k" := (bind m (fun x => k))
  (at level 61, m at next level, right associativity).
Notation "m ;; k" := (bind m (fun _ => k))
  (at level 61, right associativity).

Definition semIsNil : go bool := SemIsNil (fun b => Ret b).
Definition selectRecv : go bool := SelectRecv (fun b => Ret b).
Definition recv : go unit := Recv (Ret tt).
Definition send : go unit := Send (Ret tt).
Definition timeNow : go Z := TimeNow (fun t => Ret t).
Definition reportBlock (start : Z) : go unit := ReportBlock start (Ret tt).
Definition readUsageTimeout : go Z := ReadUsageTimeout (fun t => Ret t).
Definition goTimer (d : Z) : go nat := GoTimer d (fun id => Ret id).
Definition cancelTimer (id : nat) : go unit := CancelTimer id (Ret tt).
Definition callSql {X : Type} (f : sqlDB -> X * sqlDB) : go X :=
  CallSql f (fun x => Ret x).

(** *** Sequential execution of one call

    [run wake p w] executes [p] alone from [w].  When [p] parks on an empty
    [db.sem], [wake] says whether another goroutine ever returns a token and
    after how long; without one the call never returns ([Blocks]).  A send
    that finds the buffer full parks for good: nothing else receives. *)

Inductive Outcome (A : Type) : Type :=
| Returns (a : A) (w : World)
| Blocks
| Panics.

Arguments Blocks {A}.
Arguments Panics {A}.

Definition is_nil {X : Type} (o : option X) : bool :=
  match o with None => true | Some _ => false end.

Fixpoint run {A : Type} (wake : option Z) (p : go A) (w : World) : Outcome A :=
  match p with
  | Ret a => Returns a w
  | Panic => Panics
  | SemIsNil k => run wake (k (is_nil (sem (db w)))) w
  | SelectRecv k =>
      match sem_recv w with
      | Some w' => run wake (k true) w'
      | None => run wake (k false) w
      end
  | Recv k =>
      match sem_recv w with
      | Some w' => run wake k w'
      | None =>
          match sem (db w), wake with
          | Some _, Some d => run wake k (handed_over d w)
          | _, _ => Blocks
          end
      end
  | Send k =>
      match sem_send w with
      | Some w' => run wake k w'
      | None => Blocks
      end
  | TimeNow k => run wake (k (now w)) w
  | ReportBlock start k => run wake k (report_block start w)
  | ReadUsageTimeout k => run wake (k (usageTimeout (db w))) w
  | GoTimer d k => run wake (k (fst (go_timer d w))) (snd (go_timer d w))
  | CancelTimer id k =>
      match cancel_timer id w with
      | Some w' => run wake k w'
      | None => Panics
      end
  | CallSetBlockDurationCh c k => run wake k (SetBlockDurationCh c w)
  | CallSetUsageTimeout c t k => run wake k (with_db (SetUsageTimeout c t) w)
  | CallSql f k =>
      run wake (k (fst (f (DB_ (db w)))))
          (with_db (with_sql (snd (f (DB_ (db w))))) w)
  end.

(** *** Interleaved execution

    One step of one goroutine; [None] when it has finished, has panicked or
    is parked.  A schedule picks which goroutine moves and lets time pass. *)

Definition step {A : Type} (p : go A) (w : World) : option (go A * World) :=
  match p with
  | Ret _ => None
  | Panic => None
  | SemIsNil k => Some (k (is_nil (sem (db w))), w)
  | SelectRecv k =>
      match sem_recv w with
      | Some w' => Some (k true, w')
      | None => Some (k false, w)
      end
  | Recv k =>
      match sem_recv w with
      | Some w' => Some (k, w')
      | None => None
      end
  | Send k =>
      match sem_send w with
      | Some w' => Some (k, w')
      | None => None
      end
  | TimeNow k => Some (k (now w), w)
  | ReportBlock start k => Some (k, report_block start w)
  | ReadUsageTimeout k => Some (k (usageTimeout (db w)), w)
  | GoTimer d k => Some (k (fst (go_timer d w)), snd (go_timer d w))
  | CancelTimer id k =>
      match cancel_timer id w with
      | Some w' => Some (k, w')
      | None => None
      end
  | CallSetBlockDurationCh c k => Some (k, SetBlockDurationCh c w)
  | CallSetUsageTimeout c t k => Some (k, with_db (SetUsageTimeout c t) w)
  | CallSql f k =>
      Some (k (fst (f (DB_ (db w)))),
            with_db (with_sql (snd (f (DB_ (db w))))) w)
  end.

Inductive Action : Type :=
| Move (i : nat)                    (* goroutine i takes its next step *)
| Tick (d : Z).                     (* time passes *)

Definition Config : Type := (list (go unit) * World)%type.

Fixpoint set_nth {X : Type} (i : nat) (x : X) (l : list X) : list X :=
  match l, i with
  | [], _ => []
  | _ :: l', O => x :: l'
  | y :: l', S i' => y :: set_nth i' x l'
  end.

Definition act (a : Action) (c : Config) : option Config :=
  match a with
  | Tick d => Some (fst c, advance d (snd c))
  | Move i =>
      match nth_error (fst c) i with
      | None => None
      | Some p =>
          match step p (snd c) with
          | Some (p', w') => Some (set_nth i p' (fst c), w')
          | None => None
          end
      end
  end.

Fixpoint exec (s : list Action) (c : Config) : option Config :=
  match s with
  | [] => Some c
  | a :: s' =>
      match act a c with
      | Some c' => exec s' c'
      | None => None
      end
  end.

(** [n] steps of one goroutine left alone, or as many as it can take. *)
Fixpoint steps {A : Type} (n : nat) (p : go A) (w : World) : go A * World :=
  match n with
  | O => (p, w)
  | S n' =>
      match step p w with
      | Some (p', w') => steps n' p' w'
      | None => (p, w)
      end
  end.

(** ** sql.go: admission *)

(** The closure [conn] returns, [func() { releaseLock(); cancelUsageTimeout() }],
    by what its two parts captured: [releaseLock] is [func() { db.sem <- true }]
    when [true] and [func() {}] when [false]; [cancelUsageTimeout] is the
    cancel closure of the timer it names, or [func() {}]. *)
Record Release : Type := mkRelease {
  releaseLock : bool;
  cancelUsageTimeout : option nat
}.

(** Calling the closure. *)
Definition call (r : Release) : go unit :=
  (if releaseLock r then send else Ret tt) ;;
  match cancelUsageTimeout r with
  | Some id => cancelTimer id
  | None => Ret tt
  end.

Definition conn : go Release :=
  nosem <- semIsNil ;;
  releaseLock <-
    (if nosem then Ret false
     else
       got <- selectRecv ;;
       (if got then Ret tt
        else start <- timeNow ;; recv ;; reportBlock start) ;;
       Ret true) ;;
  usageTimeout <- readUsageTimeout ;;
  cancelUsageTimeout <-
    (if usageTimeout =? 0 then Ret None
     else id <- goTimer usageTimeout ;; Ret (Some id)) ;;
  Ret (mkRelease releaseLock cancelUsageTimeout).

Definition dummyRelease : Release := mkRelease false None.

Definition DB_SetMaxIdleConns (n : Z) : go unit :=
  nosem <- semIsNil ;;
  if nosem then callSql (fun s => (tt, sqlDB_SetMaxIdleConns s n)) else Ret tt.

(** [defer release()] runs once the results are computed. *)
Definition DB_Ping : go (option error) :=
  release <- conn ;;
  err <- callSql sqlDB_Ping ;;
  call release ;;
  Ret err.

Definition DB_Exec (query : string) (args : list arg)
  : go (option sqlResult * option error) :=
  release <- conn ;;
  res <- callSql (sqlDB_Exec query args) ;;
  call release ;;
  Ret res.

(** ** sql.go: the handle shims

    A method with a pointer receiver returns the object as it leaves it.
    The embedded pointers may be nil ([None]); [database/sql] dereferences
    its receiver, so a call through a nil one panics. *)

Record Rows : Type := mkRows {
  Rows_Rows : option sqlRows;       (* the embedded *sql.Rows *)
  Rows_closed : bool;
  Rows_release : Release
}.

Definition DB_Query (query : string) (args : list arg)
  : go (option Rows * option error) :=
  release <- conn ;;
  res <- callSql (sqlDB_Query query args) ;;
  match snd res with
  | Some err => call release ;; Ret (None, Some err)
  | None => Ret (Some (mkRows (fst res) false release), None)
  end.

Definition Rows_Next (rows : Rows) : go (bool * Rows) :=
  if Rows_closed rows then Ret (false, rows)
  else
    match Rows_Rows rows with
    | None => Panic
    | Some r =>
        let next := fst (sqlRows_Next r) in
        let r' := snd (sqlRows_Next r) in
        if negb next && is_nil (sqlRows_Err r')
        then
          (* EOF: the result set was closed by Rows.Next() *)
          call (Rows_release rows) ;;
          Ret (next, mkRows (Some r') true (Rows_release rows))
        else Ret (next, mkRows (Some r') (Rows_closed rows) (Rows_release rows))
    end.

Definition Rows_Close (rows : Rows) : go (option error * Rows) :=
  match Rows_Rows rows with
  | None => Panic
  | Some r =>
      let err := fst (sqlRows_Close r) in
      let r' := snd (sqlRows_Close r) in
      if negb (Rows_closed rows)
      then
        call (Rows_release rows) ;;
        Ret (err, mkRows (Some r') true (Rows_release rows))
      else Ret (err, mkRows (Some r') (Rows_closed rows) (Rows_release rows))
  end.

Record Row : Type := mkRow {
  Row_Row : option sqlRow;          (* the embedded *sql.Row *)
  Row_closed : bool;
  Row_release : Release
}.

Definition DB_QueryRow (query : string) (args : list arg) : go Row :=
  release <- conn ;;
  row <- callSql (sqlDB_QueryRow query args) ;;
  Ret (mkRow row false release).

Definition Row_Scan (dest : list arg) (row : Row) : go (option error * Row) :=
  match Row_Row row with
  | None => Panic
  | Some r =>
      let err := fst (sqlRow_Scan dest r) in
      let r' := snd (sqlRow_Scan dest r) in
      if negb (Row_closed row)
      then
        call (Row_release row) ;;
        Ret (err, mkRow (Some r') true (Row_release row))
      else Ret (err, mkRow (Some r') (Row_closed row) (Row_release row))
  end.

(** [s.db] is nil or points to the pool the statement was prepared on. *)
Inductive DBref : Type := ThisDB.

Record Stmt : Type := mkStmt {
  Stmt_stmt : option sqlStmt;
  Stmt_db : option DBref
}.

Definition DB_Prepare (query : string) : go (option Stmt * option error) :=
  release <- conn ;;
  res <- callSql (sqlDB_Prepare query) ;;
  call release ;;
  match snd res with
  | Some err => Ret (None, Some err)
  | None => Ret (Some (mkStmt (fst res) (Some ThisDB)), None)
  end.

Definition Stmt_Close (s : Stmt) : go (option error * Stmt) :=
  match Stmt_stmt s with
  | None => Panic
  | Some st =>
      Ret (fst (sqlStmt_Close st), mkStmt (Some (snd (sqlStmt_Close st))) (Stmt_db s))
  end.

(** [if s.db != nil { release := s.db.conn(); defer release() }]: the
    deferred call, if one was registered, runs on the way out, also when the
    call through a nil [s.stmt] panics. *)
Definition Stmt_Exec (args : list arg) (s : Stmt)
  : go ((option sqlResult * option error) * Stmt) :=
  registered <-
    (if is_nil (Stmt_db s) then Ret None
     else release <- conn ;; Ret (Some release)) ;;
  let deferred :=
    match registered with Some release => call release | None => Ret tt end in
  match Stmt_stmt s with
  | None => deferred ;; Panic
  | Some st =>
      let res := sqlStmt_Exec args st in
      deferred ;;
      Ret (fst res, mkStmt (Some (snd res)) (Stmt_db s))
  end.

Definition Stmt_Query (args : list arg) (s : Stmt)
  : go ((option Rows * option error) * Stmt) :=
  release <- (if is_nil (Stmt_db s) then Ret dummyRelease else conn) ;;
  match Stmt_stmt s with
  | None => Panic
  | Some st =>
      let rows := fst (fst (sqlStmt_Query args st)) in
      let err := snd (fst (sqlStmt_Query args st)) in
      let s' := mkStmt (Some (snd (sqlStmt_Query args st))) (Stmt_db s) in
      match err with
      | Some e => call release ;; Ret ((None, Some e), s')
      | None => Ret ((Some (mkRows rows false release), None), s')
      end
  end.

Definition Stmt_QueryRow (args : list arg) (s : Stmt) : go (Row * Stmt) :=
  release <- (if is_nil (Stmt_db s) then Ret dummyRelease else conn) ;;
  match Stmt_stmt s with
  | None => Panic
  | Some st =>
      Ret (mkRow (fst (sqlStmt_QueryRow args st)) false release,
           mkStmt (Some (snd (sqlStmt_QueryRow args st))) (Stmt_db s))
  end.

Record Tx : Type := mkTx {
  Tx_trn : option sqlTx;
  Tx_closed : bool;
  Tx_release : Release
}.

Definition DB_Begin : go (option Tx * option error) :=
  release <- conn ;;
  res <- callSql sqlDB_Begin ;;
  match snd res with
  | Some err => call release ;; Ret (None, Some err)
  | None => Ret (Some (mkTx (fst res) false release), None)
  end.

(** [if !tx.closed { defer func() { tx.release(); tx.closed = true }() }]:
    the deferred function runs after the underlying call, also when that
    call, through a nil [tx.trn], panics. *)
Definition Tx_Commit (tx : Tx) : go (option error * Tx) :=
  let deferred := if negb (Tx_closed tx) then call (Tx_release tx) else Ret tt in
  match Tx_trn tx with
  | None => deferred ;; Panic
  | Some t =>
      let res := sqlTx_Commit t in
      deferred ;;
      Ret (fst res,
           mkTx (Some (snd res))
                (if negb (Tx_closed tx) then true else Tx_closed tx)
                (Tx_release tx))
  end.

Definition Tx_Exec (query : string) (args : list arg) (tx : Tx)
  : go ((option sqlResult * option error) * Tx) :=
  match Tx_trn tx with
  | None => Panic
  | Some t =>
      Ret (fst (sqlTx_Exec query args t),
           mkTx (Some (snd (sqlTx_Exec query args t))) (Tx_closed tx) (Tx_release tx))
  end.

Definition Tx_Prepare (query : string) (tx : Tx)
  : go ((option Stmt * option error) * Tx) :=
  match Tx_trn tx with
  | None => Panic
  | Some t =>
      let stmt := fst (fst (sqlTx_Prepare query t)) in
      let err := snd (fst (sqlTx_Prepare query t)) in
      let tx' := mkTx (Some (snd (sqlTx_Prepare query t))) (Tx_closed tx) (Tx_release tx) in
      match err with
      | Some e => Ret ((None, Some e), tx')
      | None => Ret ((Some (mkStmt stmt None), None), tx')
      end
  end.

Definition Tx_Query (query : string) (args : list arg) (tx : Tx)
  : go ((option Rows * option error) * Tx) :=
  match Tx_trn tx with
  | None => Panic
  | Some t =>
      let rows := fst (fst (sqlTx_Query query args t)) in
      let err := snd (fst (sqlTx_Query query args t)) in
      Ret ((Some (mkRows rows false dummyRelease), err),
           mkTx (Some (snd (sqlTx_Query query args t))) (Tx_closed tx) (Tx_release tx))
  end.

Definition Tx_QueryRow (query : string) (args : list arg) (tx : Tx)
  : go (Row * Tx) :=
  match Tx_trn tx with
  | None => Panic
  | Some t =>
      Ret (mkRow (fst (sqlTx_QueryRow query args t)) false dummyRelease,
           mkTx (Some (snd (sqlTx_QueryRow query args t))) (Tx_closed tx) (Tx_release tx))
  end.

Definition Tx_Rollback (tx : Tx) : go (option error * Tx) :=
  let deferred := if negb (Tx_closed tx) then call (Tx_release tx) else Ret tt in
  match Tx_trn tx with
  | None => deferred ;; Panic
  | Some t =>
      let res := sqlTx_Rollback t in
      deferred ;;
      Ret (fst res,
           mkTx (Some (snd res))
                (if negb (Tx_closed tx) then true else Tx_closed tx)
                (Tx_release tx))
  end.

Definition Tx_Stmt (stmt : Stmt) (tx : Tx) : go (Stmt * Tx) :=
  match Tx_trn tx with
  | None => Panic
  | Some t =>
      Ret (mkStmt (fst (sqlTx_Stmt (Stmt_stmt stmt) t)) None,
           mkTx (Some (snd (sqlTx_Stmt (Stmt_stmt stmt) t))) (Tx_closed tx) (Tx_release tx))
  end.

End Model.

Arguments Panic {sql A}.
Arguments CallSql {sql A X} f k.
Arguments Blocks {sql A}.
Arguments Panics {sql A}.

Notation "x <- m ;; k" := (bind m (fun x => k))
  (at level 61, m at next level, right associativity).
Notation "m ;; k" := (bind m (fun _ => k))
  (at level 61, right associativity).

(** ** Vocabulary of the statements *)

(** A pool whose channel was built by [make(chan bool, c)] with [c > 0] and
    never holds more than its capacity. *)
Definition wf {sql : Sql} (w : World) : Prop :=
  match sem (db w) with
  | Some ch => (0 < cap ch)%nat /\ (length (buf ch) <= cap ch)%nat
  | None => True
  end.

(** Bounded, and every token is out: [conn] has to wait. *)
Definition exhausted {sql : Sql} (w : World) : bool :=
  match sem (db w) with
  | Some ch => match buf ch with [] => true | _ :: _ => false end
  | None => false
  end.

(** The token another goroutine returned to let a waiting call in. *)
Definition waited {sql : Sql} (w : World) : Z :=
  if exhausted w then 1 else 0.

(** What the second half of [conn] (from the read of [db.usageTimeout] on)
    returns and leaves behind, given the [releaseLock] built so far. *)
Definition arm {sql : Sql} (engaged : bool) (w : World) : Release * World :=
  if usageTimeout (db w) =? 0 then (mkRelease engaged None, w)
  else (mkRelease engaged (Some (length (timers w))),
        snd (go_timer (usageTimeout (db w)) w)).

(** The calls a consumer makes on a multi-row cursor, in some order. *)
Inductive RowsOp : Type :=
| OpNext
| OpClose.

Fixpoint Rows_do {sql : Sql} (ops : list RowsOp) (rows : Rows) : go Rows :=
  match ops with
  | [] => Ret rows
  | OpNext :: ops' => res <- Rows_Next rows ;; Rows_do ops' (snd res)
  | OpClose :: ops' => res <- Rows_Close rows ;; Rows_do ops' (snd res)
  end.

(** The calls that end a transaction, in some order. *)
Inductive TxOp : Type :=
| OpCommit
| OpRollback.

Definition Tx_end {sql : Sql} (op : TxOp) (tx : Tx) : go (option error * Tx) :=
  match op with
  | OpCommit => Tx_Commit tx
  | OpRollback => Tx_Rollback tx
  end.

Fixpoint Tx_do {sql : Sql} (ops : list TxOp) (tx : Tx) : go Tx :=
  match ops with
  | [] => Ret tx
  | op :: ops' => res <- Tx_end op tx ;; Tx_do ops' (snd res)
  end.

(** What the underlying transaction answers to [op], and its next state. *)
Definition sqlTx_end {sql : Sql} (op : TxOp) (t : sqlTx) : option error * sqlTx :=
  match op with
  | OpCommit => sqlTx_Commit t
  | OpRollback => sqlTx_Rollback t
  end.



(** The calls a program can make on a pool and on the handles it got from
    it, [conn] and a release closure included. *)
Inductive Call {sql : Sql} : Type :=
| CConn
| CRelease (r : Release)
| CSetBlockDurationCh (c : option chanref)
| CSetUsageTimeout (c : option chanref) (timeout : Z)
| CSetMaxIdleConns (n : Z)
| CPing
| CExec (query : string) (args : list arg)
| CQuery (query : string) (args : list arg)
| CQueryRow (query : string) (args : list arg)
| CPrepare (query : string)
| CBegin
| CRowsNext (rows : Rows)
| CRowsClose (rows : Rows)
| CRowScan (dest : list arg) (row : Row)
| CStmtClose (s : Stmt)
| CStmtExec (args : list arg) (s : Stmt)
| CStmtQuery (args : list arg) (s : Stmt)
| CStmtQueryRow (args : list arg) (s : Stmt)
| CTxCommit (tx : Tx)
| CTxExec (query : string) (args : list arg) (tx : Tx)
| CTxPrepare (query : string) (tx : Tx)
| CTxQuery (query : string) (args : list arg) (tx : Tx)
| CTxQueryRow (query : string) (args : list arg) (tx : Tx)
| CTxRollback (tx : Tx)
| CTxStmt (stmt : Stmt) (tx : Tx).

Definition perform {sql : Sql} (c : Call) : go unit :=
  match c with
  | CConn => conn ;; Ret tt
  | CRelease r => call r
  | CSetBlockDurationCh ch => CallSetBlockDurationCh ch (Ret tt)
  | CSetUsageTimeout ch timeout => CallSetUsageTimeout ch timeout (Ret tt)
  | CSetMaxIdleConns n => DB_SetMaxIdleConns n
  | CPing => DB_Ping ;; Ret tt
  | CExec query args => DB_Exec query args ;; Ret tt
  | CQuery query args => DB_Query query args ;; Ret tt
  | CQueryRow query args => DB_QueryRow query args ;; Ret tt
  | CPrepare query => DB_Prepare query ;; Ret tt
  | CBegin => DB_Begin ;; Ret tt
  | CRowsNext rows => Rows_Next rows ;; Ret tt
  | CRowsClose rows => Rows_Close rows ;; Ret tt
  | CRowScan dest row => Row_Scan dest row ;; Ret tt
  | CStmtClose s => Stmt_Close s ;; Ret tt
  | CStmtExec args s => Stmt_Exec args s ;; Ret tt
  | CStmtQuery args s => Stmt_Query args s ;; Ret tt
  | CStmtQueryRow args s => Stmt_QueryRow args s ;; Ret tt
  | CTxCommit tx => Tx_Commit tx ;; Ret tt
  | CTxExec query args tx => Tx_Exec query args tx ;; Ret tt
  | CTxPrepare query tx => Tx_Prepare query tx ;; Ret tt
  | CTxQuery query args tx => Tx_Query query args tx ;; Ret tt
  | CTxQueryRow query args tx => Tx_QueryRow query args tx ;; Ret tt
  | CTxRollback tx => Tx_Rollback tx ;; Ret tt
  | CTxStmt stmt tx => Tx_Stmt stmt tx ;; Ret tt
  end.

(** Calls made one after the other, each with its own chance of being
    woken up should it have to wait. *)
Fixpoint run_calls {sql : Sql} (cs : list (option Z * Call)) (w : World) : Outcome unit :=
  match cs with
  | [] => Returns tt w
  | (wake, c) :: cs' =>
      match run wake (perform c) w with
      | Returns _ w' => run_calls cs' w'
      | Blocks => Blocks
      | Panics => Panics
      end
  end.

(** Every call but [SetUsageTimeout] with a channel that is not nil. *)
Definition keeps_off {sql : Sql} (c : Call) : bool :=
  match c with
  | CSetUsageTimeout (Some _) _ => false
  | _ => true
  end.

(** A program that sets no usage-timeout channel other than nil and starts
    no timer as long as the usage timeout it reads is zero. *)
Fixpoint calm {sql : Sql} {A : Type} (p : go A) : Prop :=
  match p with
  | Ret _ => True
  | Panic => True
  | SemIsNil k => forall b, calm (k b)
  | SelectRecv k => forall b, calm (k b)
  | Recv k => calm k
  | Send k => calm k
  | TimeNow k => forall t, calm (k t)
  | ReportBlock _ k => calm k
  | ReadUsageTimeout k => calm (k 0)
  | GoTimer _ _ => False
  | CancelTimer _ k => calm k
  | CallSetBlockDurationCh _ k => calm k
  | CallSetUsageTimeout c _ k => c = None /\ calm k
  | CallSql _ k => forall x, calm (k x)
  end.

(** The pool of capacity [N]: its channel, and the account of its tokens,
    each either in the buffer or out. *)
Definition tokens_inv {sql : Sql} (N : nat) (w : World) : Prop :=
  exists ch,
    sem (db w) = Some ch /\ cap ch = N /\ (length (buf ch) <= N)%nat /\
    Z.of_nat (length (buf ch)) + outstanding w = Z.of_nat N.

(** The state of a shim against the world: either its closure has not run
    and the world is [w0], or it has run once from [w0]. *)
Definition settled {sql : Sql} (wake : option Z) (r : Release) (closed : bool)
    (w0 w : World) : Prop :=
  if closed then run wake (call r) w0 = Returns tt w else w = w0.

(** The timer goroutines still racing: started and not cancelled. *)
Definition pending {sql : Sql} (w : World) : nat :=
  length (filter (fun t => negb (cancelled t)) (timers w)).







(** ** Pools of the scripted client *)

Definition fresh : Package := @mkPackage Mock 0 [].

(** The pool [Open] builds on a healthy handle under a setting of [c]. *)
Definition pool_of (c : Z) : DB := @newDB Mock true c.

Definition cap1 : World := init_world (pool_of 1).

(** [cap1] with its only token out. *)
Definition cap1_out : World :=
  mkWorld (with_sem (mkChan 1 []) (pool_of 1)) 0 [TokenTaken] [] [] [].

Definition unlimited : World := init_world (pool_of 0).

(** An unlimited pool with a usage timeout of 5 reported on channel 0. *)
Definition unlimited_timed : World :=
  with_db (SetUsageTimeout (Some 0%nat) 5) unlimited.


Definition engaged : Release := mkRelease true None.

Definition two_rows : @sqlRows Mock := (2%nat, @None string).
Definition rows_ab : @Rows Mock := mkRows (Some two_rows) false engaged.
Definition tx0 : @Tx Mock := @mkTx Mock (Some 0%nat) false engaged.



(** A statement made inside a transaction, and the same text prepared on
    the pool. *)
Definition tx_stmt : @Stmt Mock := @mkStmt Mock (Some "ab"%string) None.
Definition pool_stmt : @Stmt Mock := @mkStmt Mock (Some "ab"%string) (Some ThisDB).

(** A process with one pool opened under a setting of 1. *)
Definition one_open : Package := @mkPackage Mock 1 [pool_of 1].

(** [cap1] with a usage timeout of 50 reported on channel 3. *)
Definition cap1_timed : World := with_db (SetUsageTimeout (Some 3%nat) 50) cap1.

Definition calls_after_off : list (option Z * @Call Mock) :=
  [ (None, CConn);
    (None, CRelease engaged);
    (None, CSetBlockDurationCh (Some 7%nat));
    (None, CQuery "bad"%string []);
    (None, CBegin);
    (Some 4, CQueryRow "ab"%string []);
    (None, CSetUsageTimeout None 9) ].


(** A pool of two tokens, both out. *)
Definition cap2_out : World :=
  mkWorld (with_sem (mkChan 2 []) (pool_of 2)) 0 [TokenTaken; TokenTaken] [] [] [].

(** A cursor whose iteration has stopped on an error. *)
Definition rows_broken : @Rows Mock :=
  mkRows (Some ((0%nat, Some "broken pipe"%string) : @sqlRows Mock)) false engaged.

(** ** Proofs *)

Section Proofs.

Context {sql : Sql}.

(** *** Execution of a sequence *)

Lemma run_bind (A B : Type) (m : go A) (f : A -> go B) wake w :
  run wake (bind m f) w =
  match run wake m w with
  | Returns a w' => run wake (f a) w'
  | Blocks => Blocks
  | Panics => Panics
  end.
Proof.
  revert w. induction m; intros w; simpl; auto.
  - destruct (sem_recv w); auto.
  - destruct (sem_recv w); auto. destruct (sem (db w)); auto. destruct wake; auto.
  - destruct (sem_send w); auto.
  - destruct (cancel_timer id w); auto.
Qed.

(** A call that returns without being woken up is a run of steps. *)
Lemma run_steps (A : Type) (p : go A) w a w' :
  run None p w = Returns a w' -> exists n, steps n p w = (Ret a, w').
Proof.
  revert w. induction p; cbn [run]; intros w E.
  - inversion E; subst. exists O. reflexivity.
  - discriminate.
  - destruct (H _ _ E) as [n Hn]. exists (S n). exact Hn.
  - destruct (sem_recv w) as [w1|] eqn:R;
      destruct (H _ _ E) as [n Hn]; exists (S n); cbn; rewrite R; exact Hn.
  - destruct (sem_recv w) as [w1|] eqn:R.
    + destruct (IHp _ E) as [n Hn]. exists (S n). cbn. rewrite R. exact Hn.
    + destruct (sem (db w)); discriminate.
  - destruct (sem_send w) as [w1|] eqn:R; [|discriminate].
    destruct (IHp _ E) as [n Hn]. exists (S n). cbn. rewrite R. exact Hn.
  - destruct (H _ _ E) as [n Hn]. exists (S n). exact Hn.
  - destruct (IHp _ E) as [n Hn]. exists (S n). exact Hn.
  - destruct (H _ _ E) as [n Hn]. exists (S n). exact Hn.
  - destruct (H _ _ E) as [n Hn]. exists (S n). exact Hn.
  - destruct (cancel_timer id w) as [w1|] eqn:R; [|discriminate].
    destruct (IHp _ E) as [n Hn]. exists (S n). cbn. rewrite R. exact Hn.
  - destruct (IHp _ E) as [n Hn]. exists (S n). exact Hn.
  - destruct (IHp _ E) as [n Hn]. exists (S n). exact Hn.
  - destruct (H _ _ E) as [n Hn]. exists (S n). exact Hn.
Qed.

(** *** [conn], case by case *)


Lemma conn_token wake w w1 :
  sem_recv w = Some w1 ->
  run wake conn w = Returns (fst (arm true w1)) (snd (arm true w1)).
Proof.
  intros E. unfold conn, arm. simpl.
  assert (N : is_nil (sem (db w)) = false).
  { unfold sem_recv in E. destruct (sem (db w)); [reflexivity | discriminate]. }
  rewrite N. simpl. rewrite E. simpl.
  destruct (usageTimeout (db w1) =? 0); reflexivity.
Qed.

Lemma conn_wait d w :
  exhausted w = true ->
  run (Some d) conn w =
  Returns (fst (arm true (report_block (now w) (handed_over d w))))
          (snd (arm true (report_block (now w) (handed_over d w)))).
Proof.
  unfold exhausted. intros E. unfold conn, arm. simpl.
  destruct (sem (db w)) as [ch|] eqn:Es; [|discriminate].
  destruct (buf ch) eqn:Eb; [|discriminate].
  simpl. unfold sem_recv, chan_recv. rewrite Es, Eb. simpl.
  destruct (usageTimeout _ =? 0); reflexivity.
Qed.

Lemma conn_blocks w :
  exhausted w = true ->
  run None conn w = Blocks.
Proof.
  unfold exhausted. intros E. unfold conn. simpl.
  destruct (sem (db w)) as [ch|] eqn:Es; [|discriminate].
  destruct (buf ch) eqn:Eb; [|discriminate].
  simpl. unfold sem_recv, chan_recv. rewrite Es, Eb. reflexivity.
Qed.

(** *** Simulation of a call on a world given by its fields *)

Lemma mark_cancelled_fresh l d :
  mark_cancelled (length l) (l ++ [mkTimer d false]) = Some (l ++ [mkTimer d true]).
Proof.
  induction l as [|t l IH]; simpl; [reflexivity|]. rewrite IH. reflexivity.
Qed.

Lemma ltb_room (n c : nat) : (S n <= c)%nat -> (n <? c)%nat = true.
Proof. intros. apply Nat.ltb_lt. lia. Qed.

Lemma balance_app h ev :
  balance (h ++ [ev]) =
  balance h + match ev with TokenTaken => 1 | TokenReturned => -1 end.
Proof.
  induction h as [|e h IH]; simpl.
  - destruct ev; reflexivity.
  - destruct e; rewrite IH; lia.
Qed.

Ltac world_cases w :=
  destruct w as [[?s ?mc [[?c ?b]|] [?bch|] ?ut ?utc] ?n ?h ?br ?tm ?cc].

Ltac timeout_cases ut :=
  let U := fresh "U" in
  destruct (Z.eqb_spec ut 0) as [->|U]; [|apply Z.eqb_neq in U].

(** Runs the program in the goal as far as the fields decide it. *)
Ltac simulate :=
  repeat (cbn -[Nat.ltb Z.of_nat Z.add Z.sub];
          repeat match goal with
                 | U : (?ut =? 0) = false |- context [?ut =? 0] => rewrite U
                 | E : ?x = Some _ |- context [match ?x with _ => _ end] => rewrite E
                 | E : ?x = None |- context [match ?x with _ => _ end] => rewrite E
                 end;
          unfold cancel_timer, sem_send, sem_recv, chan_send, chan_recv, log,
            with_db, with_sem, with_sql, advance, handed_over, report_block,
            go_timer;
          cbn -[Nat.ltb Z.of_nat Z.add Z.sub];
          rewrite ?mark_cancelled_fresh;
          rewrite ?ltb_room by (cbn in *; lia)).

Ltac count_tokens :=
  unfold outstanding; cbn -[Z.of_nat Z.add Z.sub];
  rewrite ?balance_app, ?length_app; cbn -[Z.of_nat Z.add Z.sub]; lia.

(** *** Failed calls *)

Lemma query_fails wake w query args err :
  wf w ->
  snd (fst (sqlDB_Query query args (DB_ (db w)))) = Some err ->
  match run wake (DB_Query query args) w with
  | Returns res w' =>
      res = (None, Some err) /\
      available w' = available w + waited w /\
      outstanding w' = outstanding w - waited w
  | Blocks => exhausted w = true /\ wake = None
  | Panics => False
  end.
Proof.
  world_cases w; unfold wf, waited, exhausted, available; cbn; intros W E;
    try (destruct b as [|v b]); destruct wake as [d|]; timeout_cases ut;
    unfold DB_Query, conn; simulate;
    first [ split; [reflexivity | split; count_tokens] | split; reflexivity ].
Qed.




(** *** The token account under interleaving *)

Lemma feed_fill n c b :
  (length b + n <= c)%nat ->
  feed n (mkChan c b) = mkChan c (b ++ repeat true n).
Proof.
  revert b. induction n as [|n IH]; intros b L; simpl.
  - rewrite app_nil_r. reflexivity.
  - unfold chan_send. cbn [cap buf].
    rewrite ltb_room by lia.
    rewrite IH by (rewrite length_app; simpl; lia).
    rewrite <- app_assoc. reflexivity.
Qed.

Lemma newDB_bounded sqldb c :
  0 < c ->
  sem (newDB sqldb c) = Some (mkChan (Z.to_nat c) (repeat true (Z.to_nat c))) /\
  maxConns (newDB sqldb c) = c.
Proof.
  intros C. unfold newDB. destruct (Z.ltb_spec 0 c); [|lia]. cbn.
  unfold chan_make. rewrite feed_fill by (simpl; lia). auto.
Qed.

Lemma newDB_unlimited sqldb c :
  c <= 0 ->
  sem (newDB sqldb c) = None /\ maxConns (newDB sqldb c) = 0.
Proof.
  intros C. unfold newDB. destruct (Z.ltb_spec 0 c); [lia|]. auto.
Qed.

Lemma Open_pool driver dsn pkg p pkg' d :
  Open driver dsn pkg = ((Some p, None), pkg') ->
  nth_error (pools pkg') p = Some d ->
  exists sqldb, d = newDB sqldb (Concurrency pkg).
Proof.
  unfold Open. destruct (sql_Open driver dsn) as [sqldb|err]; [|discriminate].
  intros E. inversion E; subst; clear E. cbn.
  rewrite nth_error_app2 by lia. rewrite Nat.sub_diag. cbn.
  intros E. inversion E. eauto.
Qed.

Lemma tokens_inv_init sqldb c :
  0 < c -> tokens_inv (Z.to_nat c) (init_world (newDB sqldb c)).
Proof.
  intros C. destruct (newDB_bounded sqldb C) as [E _].
  eexists. unfold outstanding. cbn. rewrite E.
  repeat split; cbn; rewrite repeat_length; lia.
Qed.

Lemma tokens_inv_frame N w w' :
  sem (db w') = sem (db w) -> hist w' = hist w ->
  tokens_inv N w -> tokens_inv N w'.
Proof.
  intros Es Eh (ch & S1 & S2 & S3 & S4). exists ch.
  unfold outstanding in *. rewrite Es, Eh. auto.
Qed.

Lemma tokens_inv_recv N w w' :
  sem_recv w = Some w' -> tokens_inv N w -> tokens_inv N w'.
Proof.
  unfold sem_recv, chan_recv. intros E (ch & S1 & S2 & S3 & S4).
  rewrite S1 in E. destruct (buf ch) as [|v rest] eqn:Eb; [discriminate|].
  inversion E; subst; clear E.
  exists (mkChan (cap ch) rest). unfold outstanding in *. cbn.
  rewrite balance_app. cbn [length] in S3, S4. repeat split; lia.
Qed.

Lemma tokens_inv_send N w w' :
  sem_send w = Some w' -> tokens_inv N w -> tokens_inv N w'.
Proof.
  unfold sem_send, chan_send. intros E (ch & S1 & S2 & S3 & S4).
  rewrite S1 in E.
  destruct (Nat.ltb_spec (length (buf ch)) (cap ch)) as [L|L]; [|discriminate].
  inversion E; subst; clear E.
  exists (mkChan (cap ch) (buf ch ++ [true])). unfold outstanding in *. cbn.
  rewrite balance_app, length_app. cbn [length]. repeat split; lia.
Qed.

Lemma cancel_timer_frame id w w' :
  cancel_timer id w = Some w' -> db w' = db w /\ hist w' = hist w.
Proof.
  unfold cancel_timer. destruct (mark_cancelled id (timers w)); [|discriminate].
  intros E. inversion E. auto.
Qed.

Lemma report_block_frame start w :
  sem (db (report_block start w)) = sem (db w) /\
  hist (report_block start w) = hist w.
Proof. unfold report_block. destruct (blockCh (db w)); auto. Qed.

Lemma SetBlockDurationCh_frame c w :
  sem (db (SetBlockDurationCh c w)) = sem (db w) /\
  hist (SetBlockDurationCh c w) = hist w.
Proof. unfold SetBlockDurationCh. destruct (blockCh (db w)); auto. Qed.

Lemma SetUsageTimeout_sem c t d : sem (SetUsageTimeout c t d) = sem d.
Proof. destruct c; reflexivity. Qed.

(** A step that leaves [db.sem] and its history alone. *)
Ltac framed w :=
  apply (tokens_inv_frame (w := w));
  [ first [ reflexivity | apply report_block_frame
          | apply SetBlockDurationCh_frame | apply SetUsageTimeout_sem ]
  | first [ reflexivity | apply report_block_frame | apply SetBlockDurationCh_frame ]
  | assumption ].

Lemma step_tokens_inv N (A : Type) (p p' : go A) w w' :
  step p w = Some (p', w') -> tokens_inv N w -> tokens_inv N w'.
Proof.
  destruct p; cbn; intros E I; try discriminate.
  - inversion E; subst; assumption.
  - destruct (sem_recv w) eqn:R; inversion E; subst; clear E;
      [eapply tokens_inv_recv; eassumption | assumption].
  - destruct (sem_recv w) eqn:R; inversion E; subst; clear E.
    eapply tokens_inv_recv; eassumption.
  - destruct (sem_send w) eqn:R; inversion E; subst; clear E.
    eapply tokens_inv_send; eassumption.
  - inversion E; subst; assumption.
  - inversion E; subst; clear E. framed w.
  - inversion E; subst; assumption.
  - inversion E; subst; clear E. framed w.
  - destruct (cancel_timer id w) eqn:R; inversion E; subst; clear E.
    apply cancel_timer_frame in R. destruct R as [R1 R2].
    apply (tokens_inv_frame (w := w)); [rewrite R1; reflexivity | assumption | assumption].
  - inversion E; subst; clear E. framed w.
  - inversion E; subst; clear E. framed w.
  - inversion E; subst; clear E. framed w.
Qed.

Lemma act_tokens_inv N a c c' :
  act a c = Some c' -> tokens_inv N (snd c) -> tokens_inv N (snd c').
Proof.
  destruct a as [i|d]; cbn.
  - destruct (nth_error (fst c) i) as [p|]; [|discriminate].
    destruct (step p (snd c)) as [[p' w']|] eqn:E; [|discriminate].
    intros E'. inversion E'; subst; clear E'. cbn.
    eapply step_tokens_inv; eassumption.
  - intros E. inversion E; subst; clear E. cbn.
    apply tokens_inv_frame; reflexivity.
Qed.

Lemma exec_tokens_inv N s c c' :
  exec s c = Some c' -> tokens_inv N (snd c) -> tokens_inv N (snd c').
Proof.
  revert c. induction s as [|a s IH]; cbn; intros c E I.
  - inversion E; subst. assumption.
  - destruct (act a c) as [c1|] eqn:Ea; [|discriminate].
    eapply IH; [eassumption|]. eapply act_tokens_inv; eassumption.
Qed.

(** A pool without a channel stays without one. *)
Lemma step_sem_nil (A : Type) (p p' : go A) w w' :
  step p w = Some (p', w') -> sem (db w) = None -> sem (db w') = None.
Proof.
  destruct p; cbn; intros E I; try discriminate.
  - inversion E; subst; assumption.
  - unfold sem_recv in E. rewrite I in E. inversion E; subst. assumption.
  - unfold sem_recv in E. rewrite I in E. discriminate.
  - unfold sem_send in E. rewrite I in E. discriminate.
  - inversion E; subst; assumption.
  - inversion E; subst; clear E.
    rewrite (proj1 (report_block_frame start w)). assumption.
  - inversion E; subst; assumption.
  - inversion E; subst; assumption.
  - destruct (cancel_timer id w) eqn:R; inversion E; subst; clear E.
    apply cancel_timer_frame in R. destruct R as [R1 R2]. rewrite R1. assumption.
  - inversion E; subst; clear E.
    rewrite (proj1 (SetBlockDurationCh_frame c w)). assumption.
  - inversion E; subst; clear E. cbn. rewrite SetUsageTimeout_sem. assumption.
  - inversion E; subst; assumption.
Qed.

Lemma exec_sem_nil s c c' :
  exec s c = Some c' -> sem (db (snd c)) = None -> sem (db (snd c')) = None.
Proof.
  revert c. induction s as [|a s IH]; cbn; intros c E I.
  - inversion E; subst. assumption.
  - destruct (act a c) as [c1|] eqn:Ea; [|discriminate].
    eapply IH; [eassumption|].
    destruct a as [i|d]; cbn in Ea.
    + destruct (nth_error (fst c) i) as [p|]; [|discriminate].
      destruct (step p (snd c)) as [[p' w']|] eqn:E'; [|discriminate].
      inversion Ea; subst; clear Ea. cbn. eapply step_sem_nil; eassumption.
    + inversion Ea; subst; clear Ea. assumption.
Qed.

(** Every state a pool reaches is well formed. *)
Lemma reachable_wf driver dsn pkg p pkg' d threads sched threads' w' :
  Open driver dsn pkg = ((Some p, None), pkg') ->
  nth_error (pools pkg') p = Some d ->
  exec sched (threads, init_world d) = Some (threads', w') ->
  wf w'.
Proof.
  intros EO Ed Ex. destruct (Open_pool _ _ _ EO Ed) as [sqldb ->].
  destruct (Z.ltb_spec 0 (Concurrency pkg)) as [C|C].
  - apply exec_tokens_inv with (N := Z.to_nat (Concurrency pkg)) in Ex;
      [|apply tokens_inv_init; assumption].
    destruct Ex as (ch & E & Ec & L & B). cbn in E. unfold wf. rewrite E. lia.
  - apply exec_sem_nil in Ex; [|apply newDB_unlimited; assumption].
    cbn in Ex. unfold wf. rewrite Ex. exact I.
Qed.


(** *** Multi-row cursors *)

Lemma Rows_Next_settled wake r rows w0 w next rows' w' :
  Rows_release rows = r ->
  settled wake r (Rows_closed rows) w0 w ->
  run wake (Rows_Next rows) w = Returns (next, rows') w' ->
  Rows_release rows' = r /\
  settled wake r (Rows_closed rows') w0 w' /\
  (Rows_closed rows = true -> Rows_closed rows' = true).
Proof.
  intros <-. unfold settled, Rows_Next.
  destruct rows as [[u|] [|] r]; cbn; intros S E; try discriminate.
  - inversion E; subst. auto.
  - destruct (negb (fst (sqlRows_Next u)) && is_nil (sqlRows_Err (snd (sqlRows_Next u)))).
    + rewrite run_bind in E.
      destruct (run wake (call r) w) as [[] w1| |] eqn:C; try discriminate.
      cbn in E. inversion E; subst. cbn. auto.
    + cbn in E. inversion E; subst. cbn. auto.
  - inversion E; subst. auto.
Qed.

Lemma Rows_Close_settled wake r rows w0 w err rows' w' :
  Rows_release rows = r ->
  settled wake r (Rows_closed rows) w0 w ->
  run wake (Rows_Close rows) w = Returns (err, rows') w' ->
  Rows_release rows' = r /\
  settled wake r (Rows_closed rows') w0 w' /\
  Rows_closed rows' = true.
Proof.
  intros <-. unfold settled, Rows_Close.
  destruct rows as [[u|] [|] r]; cbn; intros S E; try discriminate.
  - inversion E; subst. auto.
  - rewrite run_bind in E.
    destruct (run wake (call r) w) as [[] w1| |] eqn:C; try discriminate.
    cbn in E. inversion E; subst. cbn. auto.
Qed.

Lemma Rows_do_settled wake r ops :
  forall rows w0 w rows' w',
    Rows_release rows = r ->
    settled wake r (Rows_closed rows) w0 w ->
    run wake (Rows_do ops rows) w = Returns rows' w' ->
    Rows_release rows' = r /\
    settled wake r (Rows_closed rows') w0 w' /\
    (In OpClose ops \/ Rows_closed rows = true -> Rows_closed rows' = true).
Proof.
  induction ops as [|op ops IH]; intros rows w0 w rows' w' R S E.
  - cbn in E. inversion E; subst. intuition.
  - destruct op; cbn [Rows_do] in E; rewrite run_bind in E.
    + destruct (run wake (Rows_Next rows) w) as [[next rows1] w1| |] eqn:N;
        try discriminate.
      destruct (@Rows_Next_settled wake r rows w0 w next rows1 w1 R S N) as (R1 & S1 & K1).
      destruct (IH rows1 w0 w1 rows' w' R1 S1 E) as (R2 & S2 & K2).
      repeat split; try assumption.
      intros [[D|I]|C]; [discriminate | auto | auto].
    + destruct (run wake (Rows_Close rows) w) as [[err rows1] w1| |] eqn:N;
        try discriminate.
      destruct (@Rows_Close_settled wake r rows w0 w err rows1 w1 R S N) as (R1 & S1 & K1).
      destruct (IH rows1 w0 w1 rows' w' R1 S1 E) as (R2 & S2 & K2).
      repeat split; auto.
Qed.

(** C3. For a cursor that is not yet closed, with release closure [r]:
    whatever sequence of [Next] and [Close] calls is made on it, the world
    afterwards is the one before if the cursor is still open, and the one
    [r] leaves when called once if it is closed, which it is after any
    [Close].  When [Next] meets the end of the results without an error it
    calls [r] itself and closes the cursor; a [Close] after that leaves the
    world as it is, and still returns what the underlying [Close] returns on
    the underlying cursor, whose new state it keeps. *)
Theorem cursor_releases_once wake w rows :
  Rows_closed rows = false ->
  (forall ops rows' w',
     run wake (Rows_do ops rows) w = Returns rows' w' ->
     Rows_release rows' = Rows_release rows /\
     (if Rows_closed rows'
      then run wake (call (Rows_release rows)) w = Returns tt w'
      else w' = w) /\
     (In OpClose ops -> Rows_closed rows' = true)) /\
  (forall u,
     Rows_Rows rows = Some u ->
     fst (sqlRows_Next u) = false ->
     sqlRows_Err (snd (sqlRows_Next u)) = None ->
     let drained := mkRows (Some (snd (sqlRows_Next u))) true (Rows_release rows) in
     run wake (Rows_Next rows) w =
       match run wake (call (Rows_release rows)) w with
       | Returns _ w1 => Returns (false, drained) w1
       | Blocks => Blocks
       | Panics => Panics
       end /\
     forall w1,
       run wake (Rows_Close drained) w1 =
       Returns (fst (sqlRows_Close (snd (sqlRows_Next u))),
                mkRows (Some (snd (sqlRows_Close (snd (sqlRows_Next u))))) true
                       (Rows_release rows)) w1).
Proof.
  intros C. split.
  - intros ops rows' w' E.
    assert (S0 : settled wake (Rows_release rows) (Rows_closed rows) w w)
      by (unfold settled; rewrite C; reflexivity).
    destruct (@Rows_do_settled wake (Rows_release rows) ops rows w w rows' w' eq_refl S0 E)
      as (R1 & S1 & K1).
    unfold settled in S1. auto.
  - intros u U N Er. cbn zeta. split.
    + unfold Rows_Next. rewrite C, U, N, Er. cbn [negb andb is_nil].
      rewrite run_bind. destruct (run wake (call (Rows_release rows)) w) as [[] w1| |];
        reflexivity.
    + intros w1. reflexivity.
Qed.

(** *** Transactions *)

Lemma Tx_end_open wake op tx t w :
  Tx_trn tx = Some t ->
  Tx_closed tx = false ->
  run wake (Tx_end op tx) w =
  match run wake (call (Tx_release tx)) w with
  | Returns _ w1 =>
      Returns (fst (sqlTx_end op t),
               mkTx (Some (snd (sqlTx_end op t))) true (Tx_release tx)) w1
  | Blocks => Blocks
  | Panics => Panics
  end.
Proof.
  intros T C. destruct op; cbn [Tx_end sqlTx_end];
    [unfold Tx_Commit | unfold Tx_Rollback]; rewrite T, C; cbn [negb];
    rewrite run_bind;
    destruct (run wake (call (Tx_release tx)) w) as [[] w1| |]; reflexivity.
Qed.

Lemma Tx_end_closed wake op tx t w :
  Tx_trn tx = Some t ->
  Tx_closed tx = true ->
  run wake (Tx_end op tx) w =
  Returns (fst (sqlTx_end op t),
           mkTx (Some (snd (sqlTx_end op t))) true (Tx_release tx)) w.
Proof.
  intros T C. destruct op; cbn [Tx_end sqlTx_end];
    [unfold Tx_Commit | unfold Tx_Rollback]; rewrite T, C; reflexivity.
Qed.

Lemma Tx_end_settled wake r op tx w0 w err tx' w' :
  Tx_release tx = r ->
  settled wake r (Tx_closed tx) w0 w ->
  run wake (Tx_end op tx) w = Returns (err, tx') w' ->
  Tx_release tx' = r /\ Tx_closed tx' = true /\ settled wake r true w0 w'.
Proof.
  intros <- S E. destruct (Tx_trn tx) as [t|] eqn:T.
  - destruct (Tx_closed tx) eqn:C.
    + rewrite (Tx_end_closed wake op tx w T C) in E. inversion E; subst. cbn. auto.
    + rewrite (Tx_end_open wake op tx w T C) in E. unfold settled in *. subst w0.
      destruct (run wake (call (Tx_release tx)) w) as [[] w1| |]; try discriminate.
      inversion E; subst. cbn. auto.
  - exfalso. destruct op; cbn [Tx_end] in E;
      [unfold Tx_Commit in E | unfold Tx_Rollback in E]; rewrite T in E;
      rewrite run_bind in E;
      destruct (run wake (if negb (Tx_closed tx) then call (Tx_release tx) else Ret tt) w);
      discriminate.
Qed.

Lemma Tx_do_settled wake r ops :
  forall tx w0 w tx' w',
    Tx_release tx = r ->
    settled wake r (Tx_closed tx) w0 w ->
    run wake (Tx_do ops tx) w = Returns tx' w' ->
    Tx_release tx' = r /\
    settled wake r (Tx_closed tx') w0 w' /\
    (ops <> [] -> Tx_closed tx' = true).
Proof.
  induction ops as [|op ops IH]; intros tx w0 w tx' w' R S E.
  - cbn in E. inversion E; subst. intuition.
  - cbn [Tx_do] in E. rewrite run_bind in E.
    destruct (run wake (Tx_end op tx) w) as [[err tx1] w1| |] eqn:N; try discriminate.
    destruct (@Tx_end_settled wake r op tx w0 w err tx1 w1 R S N) as (R1 & C1 & S1).
    cbn [snd] in E. rewrite <- C1 in S1.
    destruct (IH tx1 w0 w1 tx' w' R1 S1 E) as (R2 & S2 & K2).
    repeat split; try assumption. intros _.
    destruct ops as [|op' ops]; [cbn in E; inversion E; subst; assumption|].
    apply K2. discriminate.
Qed.

(** C4. For a transaction that is not yet closed, with release closure [r]:
    the first [Commit] or [Rollback] calls [r] and marks the transaction
    closed; any sequence of one or more such calls leaves the world as one
    call of [r] leaves it; a [Commit] or [Rollback] on a closed transaction
    leaves the world as it is.  In each case the caller gets what the
    underlying [Commit] or [Rollback] returns, and the shim keeps the
    underlying transaction's new state. *)
Theorem transaction_releases_once wake w tx t :
  Tx_trn tx = Some t ->
  Tx_closed tx = false ->
  (forall op,
     run wake (Tx_end op tx) w =
     match run wake (call (Tx_release tx)) w with
     | Returns _ w1 =>
         Returns (fst (sqlTx_end op t),
                  mkTx (Some (snd (sqlTx_end op t))) true (Tx_release tx)) w1
     | Blocks => Blocks
     | Panics => Panics
     end) /\
  (forall op ops tx' w',
     run wake (Tx_do (op :: ops) tx) w = Returns tx' w' ->
     Tx_closed tx' = true /\
     Tx_release tx' = Tx_release tx /\
     run wake (call (Tx_release tx)) w = Returns tt w') /\
  (forall op t1 w1,
     run wake (Tx_end op (mkTx (Some t1) true (Tx_release tx))) w1 =
     Returns (fst (sqlTx_end op t1),
              mkTx (Some (snd (sqlTx_end op t1))) true (Tx_release tx)) w1).
Proof.
  intros T C.
  assert (S0 : settled wake (Tx_release tx) (Tx_closed tx) w w)
    by (unfold settled; rewrite C; reflexivity).
  split; [|split].
  - intros op. exact (@Tx_end_open wake op tx t w T C).
  - intros op ops tx' w' E.
    destruct (@Tx_do_settled wake (Tx_release tx) (op :: ops) tx w w tx' w' eq_refl S0 E)
      as (R1 & S1 & K1).
    assert (K : Tx_closed tx' = true) by (apply K1; discriminate).
    rewrite K in S1. auto.
  - intros op t1 w1.
    exact (@Tx_end_closed wake op (mkTx (Some t1) true (Tx_release tx)) t1 w1 eq_refl eq_refl).
Qed.

(** *** Single-row cursors *)







(** *** Statements *)

Lemma call_dummyRelease wake w : run wake (call dummyRelease) w = Returns tt w.
Proof. reflexivity. Qed.

Lemma tx_stmt_exec wake w args s :
  Stmt_db s = None ->
  match run wake (Stmt_Exec args s) w with
  | Returns _ w' => w' = w
  | Blocks => False
  | Panics => Stmt_stmt s = None
  end.
Proof.
  destruct s as [[st|] db0]; cbn; intros ->; reflexivity.
Qed.

Lemma tx_stmt_query wake w args s :
  Stmt_db s = None ->
  match run wake (Stmt_Query args s) w with
  | Returns res w' =>
      w' = w /\
      forall rows, fst (fst res) = Some rows -> Rows_release rows = dummyRelease
  | Blocks => False
  | Panics => Stmt_stmt s = None
  end.
Proof.
  destruct s as [[st|] db0]; cbn; intros ->; cbn; [|reflexivity].
  destruct (snd (fst (sqlStmt_Query args st))); cbn; split; try reflexivity.
  - discriminate.
  - intros rows E. inversion E. reflexivity.
Qed.

Lemma tx_stmt_queryrow wake w args s :
  Stmt_db s = None ->
  match run wake (Stmt_QueryRow args s) w with
  | Returns res w' => w' = w /\ Row_release (fst res) = dummyRelease
  | Blocks => False
  | Panics => Stmt_stmt s = None
  end.
Proof.
  destruct s as [[st|] db0]; cbn; intros ->; cbn; auto.
Qed.

Lemma pool_stmt_exec wake w args s st :
  Stmt_db s = Some ThisDB -> Stmt_stmt s = Some st -> wf w -> 0 < available w ->
  exists w',
    run wake (Stmt_Exec args s) w =
      Returns (fst (sqlStmt_Exec args st),
               mkStmt (Some (snd (sqlStmt_Exec args st))) (Some ThisDB)) w' /\
    hist w' = hist w ++ [TokenTaken; TokenReturned].
Proof.
  destruct s as [sst sdb]; cbn; intros -> ->.
  world_cases w; unfold wf, available; cbn -[Z.of_nat Z.add Z.sub]; intros W P;
    try lia; (destruct b as [|v b]; [cbn in P; lia|]); timeout_cases ut;
    unfold Stmt_Exec, conn; simulate; eexists; (split; [reflexivity|]);
    cbn; rewrite <- app_assoc; reflexivity.
Qed.

Lemma pool_stmt_query wake w args s st :
  Stmt_db s = Some ThisDB -> Stmt_stmt s = Some st -> wf w -> 0 < available w ->
  exists res s' w',
    run wake (Stmt_Query args s) w = Returns (res, s') w' /\
    match snd (fst (sqlStmt_Query args st)) with
    | Some err =>
        res = (None, Some err) /\
        hist w' = hist w ++ [TokenTaken; TokenReturned]
    | None =>
        exists r,
          res = (Some (mkRows (fst (fst (sqlStmt_Query args st))) false r), None) /\
          releaseLock r = true /\
          hist w' = hist w ++ [TokenTaken] /\
          exists w'',
            run wake (call r) w' = Returns tt w'' /\
            hist w'' = hist w ++ [TokenTaken; TokenReturned]
    end.
Proof.
  destruct s as [sst sdb]; cbn; intros -> ->.
  world_cases w; unfold wf, available; cbn -[Z.of_nat Z.add Z.sub]; intros W P;
    try lia; (destruct b as [|v b]; [cbn in P; lia|]); timeout_cases ut;
    unfold Stmt_Query, conn; simulate;
    destruct (snd (fst (sqlStmt_Query args st))) eqn:E; simulate;
    do 3 eexists; (split; [reflexivity|]);
    first [ split; [reflexivity|]; cbn; rewrite <- app_assoc; reflexivity
          | eexists; split; [reflexivity|]; split; [reflexivity|];
            split; [reflexivity|]; unfold call; simulate; eexists;
            split; [reflexivity|]; cbn; rewrite <- app_assoc; reflexivity ].
Qed.

Lemma pool_stmt_queryrow wake w args s st :
  Stmt_db s = Some ThisDB -> Stmt_stmt s = Some st -> wf w -> 0 < available w ->
  exists r w',
    run wake (Stmt_QueryRow args s) w =
      Returns (mkRow (fst (sqlStmt_QueryRow args st)) false r,
               mkStmt (Some (snd (sqlStmt_QueryRow args st))) (Some ThisDB)) w' /\
    releaseLock r = true /\
    hist w' = hist w ++ [TokenTaken] /\
    exists w'',
      run wake (call r) w' = Returns tt w'' /\
      hist w'' = hist w ++ [TokenTaken; TokenReturned].
Proof.
  destruct s as [sst sdb]; cbn; intros -> ->.
  world_cases w; unfold wf, available; cbn -[Z.of_nat Z.add Z.sub]; intros W P;
    try lia; (destruct b as [|v b]; [cbn in P; lia|]); timeout_cases ut;
    unfold Stmt_QueryRow, conn; simulate;
    do 2 eexists; (split; [reflexivity|]); (split; [reflexivity|]);
    (split; [reflexivity|]); unfold call; simulate; eexists;
    (split; [reflexivity|]); cbn; rewrite <- app_assoc; reflexivity.
Qed.

Lemma pool_stmt_blocks w args s :
  Stmt_db s = Some ThisDB -> exhausted w = true ->
  run None (Stmt_Exec args s) w = Blocks /\
  run None (Stmt_Query args s) w = Blocks /\
  run None (Stmt_QueryRow args s) w = Blocks.
Proof.
  intros D X. unfold Stmt_Exec, Stmt_Query, Stmt_QueryRow. rewrite D. cbn [is_nil].
  rewrite !run_bind. rewrite (conn_blocks w X). auto.
Qed.

Lemma Tx_Prepare_stmt wake w query tx s err tx' w' :
  run wake (Tx_Prepare query tx) w = Returns ((Some s, err), tx') w' ->
  Stmt_db s = None /\ w' = w.
Proof.
  unfold Tx_Prepare. destruct (Tx_trn tx) as [t|]; [|discriminate].
  destruct (snd (fst (sqlTx_Prepare query t))); cbn; intros E; inversion E; auto.
Qed.

Lemma Tx_Stmt_stmt wake w stmt tx s tx' w' :
  run wake (Tx_Stmt stmt tx) w = Returns (s, tx') w' ->
  Stmt_db s = None /\ w' = w.
Proof.
  unfold Tx_Stmt. destruct (Tx_trn tx) as [t|]; [|discriminate].
  cbn; intros E; inversion E; auto.
Qed.

Lemma DB_Prepare_stmt wake w query s err w' :
  run wake (DB_Prepare query) w = Returns (Some s, err) w' ->
  Stmt_db s = Some ThisDB.
Proof.
  unfold DB_Prepare. rewrite run_bind.
  destruct (run wake conn w) as [r w1| |]; try discriminate.
  cbn. rewrite run_bind.
  destruct (run wake (call r) _) as [[] w2| |]; try discriminate.
  destruct (snd (fst (sqlDB_Prepare query (DB_ (db w1))))); cbn;
    intros E; inversion E; reflexivity.
Qed.

(** C5. A statement made by [Tx.Prepare] or [Tx.Stmt] has no pool
    ([s.db] is nil), and [Exec], [Query] and [QueryRow] on such a statement
    leave the world untouched, never wait, and hand the cursors they return
    [dummyRelease], whose call does nothing.  A statement made by
    [DB.Prepare] points to the pool, and on a bounded pool with a token at
    hand each of its calls takes one token: [Exec] returns it before it
    returns, [Query] returns it at once when the underlying query fails and
    otherwise hands the cursor the release closure whose call returns that
    token, as [QueryRow] always does; with every token out and nobody
    returning one, each of the three waits for ever. *)
Theorem transaction_statements_do_not_acquire wake w :
  (forall query tx s err tx' w',
     run wake (Tx_Prepare query tx) w = Returns ((Some s, err), tx') w' ->
     Stmt_db s = None /\ w' = w) /\
  (forall stmt tx s tx' w',
     run wake (Tx_Stmt stmt tx) w = Returns (s, tx') w' ->
     Stmt_db s = None /\ w' = w) /\
  (forall args s,
     Stmt_db s = None ->
     match run wake (Stmt_Exec args s) w with
     | Returns _ w' => w' = w
     | Blocks => False
     | Panics => Stmt_stmt s = None
     end /\
     match run wake (Stmt_Query args s) w with
     | Returns res w' =>
         w' = w /\
         forall rows, fst (fst res) = Some rows -> Rows_release rows = dummyRelease
     | Blocks => False
     | Panics => Stmt_stmt s = None
     end /\
     match run wake (Stmt_QueryRow args s) w with
     | Returns res w' => w' = w /\ Row_release (fst res) = dummyRelease
     | Blocks => False
     | Panics => Stmt_stmt s = None
     end) /\
  (forall w1, run wake (call dummyRelease) w1 = Returns tt w1) /\
  (forall query s err w',
     run wake (DB_Prepare query) w = Returns (Some s, err) w' ->
     Stmt_db s = Some ThisDB) /\
  (forall args s st,
     Stmt_db s = Some ThisDB -> Stmt_stmt s = Some st ->
     (wf w -> 0 < available w ->
      (exists w',
         run wake (Stmt_Exec args s) w =
           Returns (fst (sqlStmt_Exec args st),
                    mkStmt (Some (snd (sqlStmt_Exec args st))) (Some ThisDB)) w' /\
         hist w' = hist w ++ [TokenTaken; TokenReturned]) /\
      (exists res s' w',
         run wake (Stmt_Query args s) w = Returns (res, s') w' /\
         match snd (fst (sqlStmt_Query args st)) with
         | Some err =>
             res = (None, Some err) /\
             hist w' = hist w ++ [TokenTaken; TokenReturned]
         | None =>
             exists r,
               res = (Some (mkRows (fst (fst (sqlStmt_Query args st))) false r), None) /\
               releaseLock r = true /\
               hist w' = hist w ++ [TokenTaken] /\
               exists w'',
                 run wake (call r) w' = Returns tt w'' /\
                 hist w'' = hist w ++ [TokenTaken; TokenReturned]
         end) /\
      (exists r w',
         run wake (Stmt_QueryRow args s) w =
           Returns (mkRow (fst (sqlStmt_QueryRow args st)) false r,
                    mkStmt (Some (snd (sqlStmt_QueryRow args st))) (Some ThisDB)) w' /\
         releaseLock r = true /\
         hist w' = hist w ++ [TokenTaken] /\
         exists w'',
           run wake (call r) w' = Returns tt w'' /\
           hist w'' = hist w ++ [TokenTaken; TokenReturned])) /\
     (exhausted w = true ->
      run None (Stmt_Exec args s) w = Blocks /\
      run None (Stmt_Query args s) w = Blocks /\
      run None (Stmt_QueryRow args s) w = Blocks)).
Proof.
  split; [|split; [|split; [|split; [|split]]]].
  - intros query tx s err tx' w' E.
    exact (@Tx_Prepare_stmt wake w query tx s err tx' w' E).
  - intros stmt tx s tx' w' E. exact (@Tx_Stmt_stmt wake w stmt tx s tx' w' E).
  - intros args s D. split; [|split].
    + exact (@tx_stmt_exec wake w args s D).
    + exact (@tx_stmt_query wake w args s D).
    + exact (@tx_stmt_queryrow wake w args s D).
  - intros w1. apply call_dummyRelease.
  - intros query s err w' E. exact (@DB_Prepare_stmt wake w query s err w' E).
  - intros args s st D T. split.
    + intros W P. split; [|split].
      * exact (@pool_stmt_exec wake w args s st D T W P).
      * exact (@pool_stmt_query wake w args s st D T W P).
      * exact (@pool_stmt_queryrow wake w args s st D T W P).
    + intros X. exact (@pool_stmt_blocks w args s D X).
Qed.

(** *** Unlimited pools *)




(** *** The concurrency setting *)

(** C8. [SetConcurrency] leaves the pools opened so far as they are, with
    their channel, capacity, tokens and [MaxConns]; so does a later [Open],
    whose new pool alone takes the new setting: a channel of [count] tokens
    and [MaxConns = count] when [count > 0], no channel and [MaxConns = 0]
    otherwise. *)
Theorem SetConcurrency_leaves_open_pools count pkg :
  pools (SetConcurrency count pkg) = pools pkg /\
  (forall p d,
     nth_error (pools pkg) p = Some d ->
     nth_error (pools (SetConcurrency count pkg)) p = Some d) /\
  (forall driver dsn p pkg' d,
     Open driver dsn (SetConcurrency count pkg) = ((Some p, None), pkg') ->
     nth_error (pools pkg') p = Some d ->
     (forall q d0,
        nth_error (pools pkg) q = Some d0 -> nth_error (pools pkg') q = Some d0) /\
     (0 < count ->
      MaxConns d = count /\
      sem d = Some (mkChan (Z.to_nat count) (repeat true (Z.to_nat count)))) /\
     (count <= 0 -> MaxConns d = 0 /\ sem d = None)).
Proof.
  assert (P : pools (SetConcurrency count pkg) = pools pkg)
    by (unfold SetConcurrency; destruct (0 <? count); reflexivity).
  split; [assumption|]. split.
  - intros p d E. rewrite P. assumption.
  - intros driver dsn p pkg' d EO Ed.
    destruct (Open_pool _ _ _ EO Ed) as [sqldb ->].
    assert (C : Concurrency (SetConcurrency count pkg) = if 0 <? count then count else 0)
      by (unfold SetConcurrency, Concurrency; destruct (0 <? count); reflexivity).
    rewrite C. split; [|split].
    + intros q d0 E. unfold Open in EO.
      destruct (sql_Open driver dsn); [|discriminate].
      inversion EO; subst; clear EO. cbn. rewrite P.
      rewrite nth_error_app1; [assumption|].
      apply nth_error_Some. rewrite E. discriminate.
    + intros L. destruct (Z.ltb_spec 0 count); [|lia].
      destruct (newDB_bounded sqldb L) as [E1 E2]. unfold MaxConns. auto.
    + intros L. destruct (Z.ltb_spec 0 count); [lia|].
      destruct (@newDB_unlimited sqldb 0) as [E1 E2]; [lia|]. unfold MaxConns. auto.
Qed.

(** *** Queries inside a transaction *)

(** C10. [Tx.Query] returns a shim in every case: it wraps whatever cursor
    pointer the underlying query returned, is open and carries
    [dummyRelease]; the underlying error comes with it unchanged, and the
    world is untouched.  [DB.Query], when it returns after an underlying
    error, returns no shim with that error. *)
Theorem tx_query_returns_shim wake w query args tx t :
  Tx_trn tx = Some t ->
  run wake (Tx_Query query args tx) w =
    Returns ((Some (mkRows (fst (fst (sqlTx_Query query args t))) false dummyRelease),
              snd (fst (sqlTx_Query query args t))),
             mkTx (Some (snd (sqlTx_Query query args t))) (Tx_closed tx) (Tx_release tx))
            w /\
  (forall err res w',
     wf w ->
     snd (fst (sqlDB_Query query args (DB_ (db w)))) = Some err ->
     run wake (DB_Query query args) w = Returns res w' ->
     res = (None, Some err)).
Proof.
  intros T. split.
  - unfold Tx_Query. rewrite T. reflexivity.
  - intros err res w' W E R.
    pose proof (@query_fails wake w query args err W E) as Q.
    rewrite R in Q. apply Q.
Qed.

(** *** The usage timeout switched off *)

Lemma calm_bind (A B : Type) (m : go A) (f : A -> go B) :
  calm m -> (forall a, calm (f a)) -> calm (bind m f).
Proof.
  induction m; cbn; intros Cm Cf; auto.
  destruct Cm. auto.
Qed.

Lemma calm_conn : calm conn.
Proof. unfold conn. cbn. intros [|]; cbn; auto. intros [|]; cbn; auto. Qed.

Lemma calm_call r : calm (call r).
Proof. destruct r as [[|] [id|]]; cbn; auto. Qed.

Ltac calm_go :=
  repeat match goal with
         | |- calm (bind _ _) => apply calm_bind
         | |- calm conn => apply calm_conn
         | |- calm (call _) => apply calm_call
         | |- calm (match ?x with _ => _ end) => destruct x
         | |- forall _, _ => intro
         | |- True => exact I
         | |- _ /\ _ => split
         | |- _ = _ => reflexivity
         | |- _ => progress cbn
         end.

Lemma calm_perform c : keeps_off c = true -> calm (perform c).
Proof.
  destruct c; cbn [keeps_off perform]; intros K;
    try (destruct c; [discriminate|]);
    unfold DB_SetMaxIdleConns, DB_Ping, DB_Exec, DB_Query, DB_QueryRow, DB_Prepare,
      DB_Begin, Rows_Next, Rows_Close, Row_Scan, Stmt_Close, Stmt_Exec, Stmt_Query,
      Stmt_QueryRow, Tx_Commit, Tx_Exec, Tx_Prepare, Tx_Query, Tx_QueryRow,
      Tx_Rollback, Tx_Stmt;
    calm_go.
Qed.

Lemma mark_cancelled_length id l l' :
  mark_cancelled id l = Some l' -> length l' = length l.
Proof.
  revert id l'. induction l as [|t l IH]; intros [|id] l'; cbn; try discriminate.
  - destruct (cancelled t); [discriminate|]. intros E. inversion E. reflexivity.
  - destruct (mark_cancelled id l) as [l1|] eqn:M; [|discriminate].
    intros E. inversion E. cbn. f_equal. eapply IH. eassumption.
Qed.

Lemma calm_run wake (A : Type) (p : go A) :
  calm p ->
  forall w a w',
    usageTimeout (db w) = 0 ->
    run wake p w = Returns a w' ->
    usageTimeout (db w') = 0 /\ length (timers w') = length (timers w).
Proof.
  induction p; cbn; intros Cp w a' w' U E.
  - inversion E; subst. auto.
  - discriminate.
  - apply (H _ (Cp _)) in E; assumption.
  - destruct (sem_recv w) as [w1|] eqn:R; [|apply (H _ (Cp _)) in E; assumption].
    unfold sem_recv in R. destruct (sem (db w)) as [ch|]; [|discriminate].
    destruct (chan_recv ch) as [[v ch']|]; [|discriminate].
    inversion R; subst; clear R. apply (H _ (Cp _)) in E; [exact E | exact U].
  - destruct (sem_recv w) as [w1|] eqn:R.
    + unfold sem_recv in R. destruct (sem (db w)) as [ch|]; [|discriminate].
      destruct (chan_recv ch) as [[v ch']|]; [|discriminate].
      inversion R; subst; clear R. apply (IHp Cp) in E; [exact E | exact U].
    + destruct (sem (db w)); [|discriminate]. destruct wake as [d|]; [|discriminate].
      apply (IHp Cp) in E; [exact E | exact U].
  - destruct (sem_send w) as [w1|] eqn:R; [|discriminate].
    unfold sem_send in R. destruct (sem (db w)) as [ch|]; [|discriminate].
    destruct (chan_send true ch) as [ch'|]; [|discriminate].
    inversion R; subst; clear R. apply (IHp Cp) in E; [exact E | exact U].
  - apply (H _ (Cp _)) in E; assumption.
  - apply (IHp Cp) in E.
    + unfold report_block in E. destruct (blockCh (db w)); exact E.
    + unfold report_block. destruct (blockCh (db w)); exact U.
  - rewrite U in E. apply (H _ Cp) in E; assumption.
  - contradiction.
  - destruct (cancel_timer id w) as [w1|] eqn:R; [|discriminate].
    unfold cancel_timer in R.
    destruct (mark_cancelled id (timers w)) as [l|] eqn:M; [|discriminate].
    inversion R; subst; clear R. apply (IHp Cp) in E; [|exact U]. cbn in E.
    rewrite (mark_cancelled_length _ _ M) in E. exact E.
  - apply (IHp Cp) in E.
    + unfold SetBlockDurationCh in E. destruct (blockCh (db w)); exact E.
    + unfold SetBlockDurationCh. destruct (blockCh (db w)); exact U.
  - destruct Cp as [-> Cp]. apply (IHp Cp) in E; [exact E | reflexivity].
  - apply (H _ (Cp _)) in E; [exact E | exact U].
Qed.

Lemma run_calls_off cs :
  forallb (fun x => keeps_off (snd x)) cs = true ->
  forall w w',
    usageTimeout (db w) = 0 ->
    run_calls cs w = Returns tt w' ->
    usageTimeout (db w') = 0 /\ length (timers w') = length (timers w).
Proof.
  induction cs as [|[wake c] cs IH]; cbn [forallb run_calls snd]; intros K w w' U E.
  - inversion E; subst. auto.
  - apply andb_prop in K. destruct K as [Kc Kcs].
    destruct (run wake (perform c) w) as [[] w1| |] eqn:R; try discriminate.
    destruct (@calm_run wake unit (perform c) (calm_perform c Kc) w tt w1 U R) as [U1 L1].
    destruct (IH Kcs w1 w' U1 E) as [U2 L2]. split; [assumption | congruence].
Qed.

Lemma conn_off wake w r w' :
  usageTimeout (db w) = 0 ->
  run wake conn w = Returns r w' ->
  cancelUsageTimeout r = None /\ timers w' = timers w.
Proof.
  world_cases w; cbn; intros ->;
    try (destruct b as [|v b]); destruct wake as [d|];
    unfold conn; simulate; intros E; inversion E; subst; auto.
Qed.

(** C9. [SetUsageTimeout] with a nil channel stores the nil channel and a
    timeout of zero, whatever timeout it is given.  From then on, through
    any calls on the pool and its handles other than [SetUsageTimeout] with
    a channel that is not nil, the timeout stays zero and no timer is
    started: there are as many timer goroutines afterwards as before.  A
    [conn] that reads a zero timeout starts none and returns a closure with
    nothing to cancel. *)
Theorem usage_timeout_off :
  (forall timeout d,
     usageTimeout (SetUsageTimeout None timeout d) = 0 /\
     usageTimeoutCh (SetUsageTimeout None timeout d) = None) /\
  (forall timeout cs w w',
     forallb (fun x => keeps_off (snd x)) cs = true ->
     run_calls ((None, CSetUsageTimeout None timeout) :: cs) w = Returns tt w' ->
     usageTimeout (db w') = 0 /\ length (timers w') = length (timers w)) /\
  (forall wake w r w',
     usageTimeout (db w) = 0 ->
     run wake conn w = Returns r w' ->
     cancelUsageTimeout r = None /\ timers w' = timers w).
Proof.
  split; [|split].
  - intros timeout d. split; reflexivity.
  - intros timeout cs w w' K E. cbn [run_calls perform run] in E.
    apply (run_calls_off cs K) in E; [exact E | reflexivity].
  - intros wake w r w' U E. exact (@conn_off wake w r w' U E).
Qed.

(** *** One-shot calls *)

Ltac count_pending :=
  unfold pending; cbn -[Z.of_nat Z.add Z.sub];
  rewrite ?filter_app, ?length_app; cbn -[Z.of_nat Z.add Z.sub]; lia.





(** *** Admission on a bounded pool *)


(** *** Usage timers *)

Lemma mark_cancelled_middle before d later :
  mark_cancelled (length before) (before ++ mkTimer d false :: later)
  = Some (before ++ mkTimer d true :: later).
Proof.
  induction before as [|t l IH]; simpl; [reflexivity|]. rewrite IH. reflexivity.
Qed.

Lemma sem_send_timers w w' : sem_send w = Some w' -> timers w' = timers w.
Proof.
  unfold sem_send. destruct (sem (db w)) as [ch|]; [|discriminate].
  destruct (chan_send true ch); [|discriminate]. intros E. inversion E. reflexivity.
Qed.

Lemma call_cancels wake e id w1 w2 :
  run wake (call (mkRelease e (Some id))) w1 = Returns tt w2 ->
  mark_cancelled id (timers w1) = Some (timers w2).
Proof.
  unfold call. cbn [releaseLock cancelUsageTimeout]. rewrite run_bind.
  destruct e; cbn [run send cancelTimer].
  - destruct (sem_send w1) as [w|] eqn:S; [|discriminate]. cbn.
    apply sem_send_timers in S. unfold cancel_timer. rewrite S.
    destruct (mark_cancelled id (timers w1)); [|discriminate].
    intros E. inversion E. reflexivity.
  - unfold cancel_timer.
    destruct (mark_cancelled id (timers w1)); [|discriminate].
    intros E. inversion E. reflexivity.
Qed.

Lemma conn_timer_started wake w r w' :
  run wake conn w = Returns r w' ->
  usageTimeout (db w) <> 0 ->
  cancelUsageTimeout r = Some (length (timers w)) /\
  timers w' = timers w ++ [mkTimer (usageTimeout (db w)) false].
Proof.
  world_cases w; cbn; intros E U;
    try (destruct b as [|v b]); destruct wake as [d|]; timeout_cases ut;
    try contradiction; revert E; unfold conn; simulate;
    intros E; inversion E; subst; auto.
Qed.

(** X3. When the usage timeout is not zero, [conn] starts exactly one
    timer, with the timeout read at that moment, and hands its cancel
    function to the closure it returns.  A call of that closure that returns
    cancels that timer and touches no other, whatever timers were started or
    cancelled in between. *)
Theorem conn_starts_its_timer wake w r w' :
  run wake conn w = Returns r w' ->
  usageTimeout (db w) <> 0 ->
  cancelUsageTimeout r = Some (length (timers w)) /\
  timers w' = timers w ++ [mkTimer (usageTimeout (db w)) false] /\
  pending w' = S (pending w) /\
  forall before later w1 w2 wake',
    length before = length (timers w) ->
    timers w1 = before ++ mkTimer (usageTimeout (db w)) false :: later ->
    run wake' (call r) w1 = Returns tt w2 ->
    timers w2 = before ++ mkTimer (usageTimeout (db w)) true :: later /\
    pending w2 = Nat.pred (pending w1).
Proof.
  intros E U. destruct (conn_timer_started wake w E U) as [C T].
  split; [exact C|]. split; [exact T|]. split.
  - unfold pending. rewrite T, filter_app, length_app. cbn. lia.
  - intros before later w1 w2 wake' L T1 R.
    destruct r as [e c]. cbn in C. subst c.
    apply call_cancels in R. rewrite T1, <- L, mark_cancelled_middle in R.
    inversion R as [R']. split; [reflexivity|].
    unfold pending. rewrite T1, <- R', !filter_app, !length_app. cbn. lia.
Qed.

(** *** A release closure is for one call *)

Lemma mark_cancelled_again id l l' :
  mark_cancelled id l = Some l' -> mark_cancelled id l' = None.
Proof.
  revert id l'. induction l as [|t l IH]; intros [|id] l'; cbn; try discriminate.
  - destruct (cancelled t); [discriminate|]. intros E. inversion E. reflexivity.
  - destruct (mark_cancelled id l) as [l1|] eqn:M; [|discriminate].
    intros E. inversion E. cbn. rewrite (IH _ _ M). reflexivity.
Qed.

Lemma call_with_timer wake e id w u w' :
  run wake (call (mkRelease e (Some id))) w = Returns u w' ->
  mark_cancelled id (timers w) <> None.
Proof.
  destruct u. intros R. rewrite (call_cancels _ _ _ _ R). discriminate.
Qed.

(** X4. The closure [conn] returns is good for one call.  Once a call of
    a closure that carries a timer has returned, no further call of it
    returns while that timer stands cancelled: it panics on the closed
    cancel channel, unless it first parks on a full [db.sem].  An engaged
    closure called on a pool whose tokens are all in parks for ever.  And an
    engaged closure without a timer, called twice where there is room, puts
    two tokens back for the one it took. *)
Theorem release_closure_single_use wake :
  (forall r w w1,
     run wake (call r) w = Returns tt w1 ->
     cancelUsageTimeout r <> None ->
     forall wake' w2 u w3,
       timers w2 = timers w1 ->
       run wake' (call r) w2 <> Returns u w3) /\
  (forall r w ch,
     releaseLock r = true ->
     sem (db w) = Some ch ->
     (cap ch <= length (buf ch))%nat ->
     run wake (call r) w = Blocks) /\
  (forall w ch,
     sem (db w) = Some ch ->
     (length (buf ch) + 2 <= cap ch)%nat ->
     exists w',
       run wake (call (mkRelease true None) ;; call (mkRelease true None)) w
         = Returns tt w' /\
       available w' = available w + 2 /\
       outstanding w' = outstanding w - 2).
Proof.
  split; [|split].
  - intros [e [id|]] w w1 R T wake' w2 u w3 E R2; [|contradiction].
    apply call_cancels in R. apply mark_cancelled_again in R.
    apply call_with_timer in R2. rewrite E in R2. contradiction.
  - intros [e c] w ch L S F. cbn in L. subst e.
    unfold call. cbn [releaseLock]. rewrite run_bind. cbn [run send].
    unfold sem_send, chan_send. rewrite S.
    destruct (Nat.ltb_spec (length (buf ch)) (cap ch)); [lia | reflexivity].
  - intros w ch S L. destruct w as [[s mc se bc ut utc] n h br tm cc].
    cbn in S. subst se. destruct ch as [c b]. cbn [cap buf] in L.
    unfold call. simulate. rewrite length_app. cbn [length].
    rewrite ltb_room by lia. simulate.
    eexists. split; [reflexivity|]. unfold available, outstanding.
    cbn -[Z.of_nat Z.add Z.sub]. rewrite !length_app, !balance_app.
    cbn -[Z.of_nat Z.add Z.sub]. lia.
Qed.




(** *** The block channel *)





(** *** The idle-connection limit *)

Lemma SetMaxIdleConns_calls wake ns :
  forall w,
    run_calls (map (fun n => (wake, CSetMaxIdleConns n)) ns) w =
    Returns tt
      (if is_nil (sem (db w))
       then with_db (with_sql (fold_left sqlDB_SetMaxIdleConns ns (DB_ (db w)))) w
       else w).
Proof.
  induction ns as [|n ns IH]; intros w.
  - cbn. destruct w as [[s mc [ch|] bc ut utc] nw h br tm cc]; reflexivity.
  - cbn [map run_calls perform]. unfold DB_SetMaxIdleConns. cbn [bind semIsNil run].
    destruct (sem (db w)) as [ch|] eqn:S; cbn [is_nil].
    + cbn [run]. rewrite IH, S. reflexivity.
    + cbn [callSql bind run fst snd]. rewrite IH. cbn. rewrite S. reflexivity.
Qed.

(** X7. [SetMaxIdleConns] on a pool as [Open] made it.  Under a setting
    [c > 0] any series of calls returns at once and changes nothing: the
    underlying handle keeps the limit [c] that [Open] gave it.  Under a
    setting of zero or less the calls reach the underlying handle one after
    the other.  No call takes a token or waits. *)
Theorem SetMaxIdleConns_ignored_when_bounded wake sqldb c ns :
  run_calls (map (fun n => (wake, CSetMaxIdleConns n)) ns) (init_world (newDB sqldb c)) =
  Returns tt
    (if 0 <? c
     then init_world (newDB sqldb c)
     else init_world (newDB (fold_left sqlDB_SetMaxIdleConns ns sqldb) c)) /\
  (0 < c -> DB_ (newDB sqldb c) = sqlDB_SetMaxIdleConns sqldb c).
Proof.
  rewrite SetMaxIdleConns_calls. unfold newDB.
  destruct (0 <? c) eqn:C; split; try reflexivity.
  intros P. apply Z.ltb_ge in C. lia.
Qed.

(** *** Handles that hold a token *)





(** *** A handle's life, from the call that makes it to its release *)

Ltac restored :=
  eexists; split; [reflexivity|]; split; [count_tokens|];
  split; [count_tokens | count_pending].

Lemma query_close_restores wake w query args rows w' u :
  wf w ->
  run wake (DB_Query query args) w = Returns (Some rows, None) w' ->
  Rows_Rows rows = Some u ->
  exists w'',
    run wake (Rows_Close rows) w'
      = Returns (fst (sqlRows_Close u),
                 mkRows (Some (snd (sqlRows_Close u))) true (Rows_release rows)) w'' /\
    available w'' = available w + waited w /\
    outstanding w'' = outstanding w - waited w /\
    pending w'' = pending w.
Proof.
  world_cases w; unfold wf, waited, exhausted, available;
    cbn -[Z.of_nat Z.add Z.sub]; intros W E U;
    try (destruct b as [|v b]); destruct wake as [d|]; timeout_cases ut;
    revert E; unfold DB_Query, conn; simulate;
    destruct (snd (fst (sqlDB_Query query args s))); simulate;
    intros E; inversion E; subst; clear E; cbn in U;
    unfold Rows_Close, call; simulate; restored.
Qed.

Lemma query_drain_restores wake w query args rows w' u :
  wf w ->
  run wake (DB_Query query args) w = Returns (Some rows, None) w' ->
  Rows_Rows rows = Some u ->
  fst (sqlRows_Next u) = false ->
  sqlRows_Err (snd (sqlRows_Next u)) = None ->
  exists w'',
    run wake (Rows_Next rows) w'
      = Returns (false, mkRows (Some (snd (sqlRows_Next u))) true (Rows_release rows)) w'' /\
    available w'' = available w + waited w /\
    outstanding w'' = outstanding w - waited w /\
    pending w'' = pending w.
Proof.
  world_cases w; unfold wf, waited, exhausted, available;
    cbn -[Z.of_nat Z.add Z.sub]; intros W E U N R;
    try (destruct b as [|v b]); destruct wake as [d|]; timeout_cases ut;
    revert E; unfold DB_Query, conn; simulate;
    destruct (snd (fst (sqlDB_Query query args s))); simulate;
    intros E; inversion E; subst; clear E; cbn in U;
    unfold Rows_Next, call; simulate; rewrite N, R; simulate; restored.
Qed.

Lemma begin_end_restores wake w tx w' t op :
  wf w ->
  run wake DB_Begin w = Returns (Some tx, None) w' ->
  Tx_trn tx = Some t ->
  exists w'',
    run wake (Tx_end op tx) w'
      = Returns (fst (sqlTx_end op t),
                 mkTx (Some (snd (sqlTx_end op t))) true (Tx_release tx)) w'' /\
    available w'' = available w + waited w /\
    outstanding w'' = outstanding w - waited w /\
    pending w'' = pending w.
Proof.
  world_cases w; unfold wf, waited, exhausted, available;
    cbn -[Z.of_nat Z.add Z.sub]; intros W E U;
    try (destruct b as [|v b]); destruct wake as [d|]; timeout_cases ut;
    revert E; unfold DB_Begin, conn; simulate;
    destruct (snd (fst (sqlDB_Begin s))); simulate;
    intros E; inversion E; subst; clear E; cbn in U;
    destruct op; unfold Tx_end, Tx_Commit, Tx_Rollback, sqlTx_end, call;
    simulate; restored.
Qed.

Lemma queryrow_scan_restores wake w query args dest row w' u :
  wf w ->
  run wake (DB_QueryRow query args) w = Returns row w' ->
  Row_Row row = Some u ->
  exists w'',
    run wake (Row_Scan dest row) w'
      = Returns (fst (sqlRow_Scan dest u),
                 mkRow (Some (snd (sqlRow_Scan dest u))) true (Row_release row)) w'' /\
    available w'' = available w + waited w /\
    outstanding w'' = outstanding w - waited w /\
    pending w'' = pending w.
Proof.
  world_cases w; unfold wf, waited, exhausted, available;
    cbn -[Z.of_nat Z.add Z.sub]; intros W E U;
    try (destruct b as [|v b]); destruct wake as [d|]; timeout_cases ut;
    revert E; unfold DB_QueryRow, conn; simulate;
    intros E; inversion E; subst; clear E; cbn in U;
    unfold Row_Scan, call; simulate; restored.
Qed.

(** X9. A handle gives back what the call that made it took.  On a
    well-formed pool, a cursor from a successful [DB.Query] that is then
    closed, or read to a clean end of the results; a transaction from a
    successful [DB.Begin] that is then committed or rolled back; a
    single-row cursor from [DB.QueryRow] that is then scanned: in each case
    the second call returns the underlying result, marks the shim closed,
    and leaves as many tokens available and timers pending as before the
    first call (plus the token a peer returned to let the first call in). *)
Theorem handle_lifecycle_restores_tokens wake w :
  wf w ->
  (forall query args rows w' u,
     run wake (DB_Query query args) w = Returns (Some rows, None) w' ->
     Rows_Rows rows = Some u ->
     (exists w'',
        run wake (Rows_Close rows) w'
          = Returns (fst (sqlRows_Close u),
                     mkRows (Some (snd (sqlRows_Close u))) true (Rows_release rows)) w'' /\
        available w'' = available w + waited w /\
        outstanding w'' = outstanding w - waited w /\
        pending w'' = pending w) /\
     (fst (sqlRows_Next u) = false ->
      sqlRows_Err (snd (sqlRows_Next u)) = None ->
      exists w'',
        run wake (Rows_Next rows) w'
          = Returns (false,
                     mkRows (Some (snd (sqlRows_Next u))) true (Rows_release rows)) w'' /\
        available w'' = available w + waited w /\
        outstanding w'' = outstanding w - waited w /\
        pending w'' = pending w)) /\
  (forall tx w' t op,
     run wake DB_Begin w = Returns (Some tx, None) w' ->
     Tx_trn tx = Some t ->
     exists w'',
       run wake (Tx_end op tx) w'
         = Returns (fst (sqlTx_end op t),
                    mkTx (Some (snd (sqlTx_end op t))) true (Tx_release tx)) w'' /\
       available w'' = available w + waited w /\
       outstanding w'' = outstanding w - waited w /\
       pending w'' = pending w) /\
  (forall query args dest row w' u,
     run wake (DB_QueryRow query args) w = Returns row w' ->
     Row_Row row = Some u ->
     exists w'',
       run wake (Row_Scan dest row) w'
         = Returns (fst (sqlRow_Scan dest u),
                    mkRow (Some (snd (sqlRow_Scan dest u))) true (Row_release row)) w'' /\
       available w'' = available w + waited w /\
       outstanding w'' = outstanding w - waited w /\
       pending w'' = pending w).
Proof.
  intros W. split; [|split].
  - intros query args rows w' u E U. split.
    + exact (@query_close_restores wake w query args rows w' u W E U).
    + intros N R. exact (@query_drain_restores wake w query args rows w' u W E U N R).
  - intros tx w' t op E U. exact (@begin_end_restores wake w tx w' t op W E U).
  - intros query args dest row w' u E U.
    exact (@queryrow_scan_restores wake w query args dest row w' u W E U).
Qed.

(** *** [Next], call by call *)

Lemma Next_closed_repeat wake n :
  forall rows w,
    Rows_closed rows = true ->
    run wake (Rows_do (repeat OpNext n) rows) w = Returns rows w.
Proof.
  induction n as [|n IH]; intros rows w C; [reflexivity|].
  cbn [repeat Rows_do]. rewrite run_bind. unfold Rows_Next. rewrite C.
  cbn [run snd]. apply IH. assumption.
Qed.

(** X10. [Rows.Next] releases the token in one case only.  On an open
    cursor it returns what the underlying [Next] returns and keeps the
    cursor's new state; it calls the release closure and closes the shim
    exactly when the underlying [Next] returned false and [Err] returns
    nil.  When a row is there, or when the iteration stopped on an error,
    the world is untouched and the shim stays open: the token is still out
    until [Close].  On a closed shim any number of [Next] calls return false
    and touch neither the world nor the underlying cursor. *)
Theorem next_releases_only_at_clean_end wake w rows :
  (forall u next rows' w',
     Rows_Rows rows = Some u ->
     Rows_closed rows = false ->
     run wake (Rows_Next rows) w = Returns (next, rows') w' ->
     next = fst (sqlRows_Next u) /\
     Rows_Rows rows' = Some (snd (sqlRows_Next u)) /\
     Rows_release rows' = Rows_release rows /\
     Rows_closed rows' =
       negb (fst (sqlRows_Next u)) && is_nil (sqlRows_Err (snd (sqlRows_Next u))) /\
     if Rows_closed rows'
     then run wake (call (Rows_release rows)) w = Returns tt w'
     else w' = w) /\
  (forall u,
     Rows_Rows rows = Some u ->
     Rows_closed rows = false ->
     negb (fst (sqlRows_Next u)) && is_nil (sqlRows_Err (snd (sqlRows_Next u))) = false ->
     run wake (Rows_Next rows) w
       = Returns (fst (sqlRows_Next u),
                  mkRows (Some (snd (sqlRows_Next u))) false (Rows_release rows)) w) /\
  (Rows_closed rows = true ->
   forall n, run wake (Rows_do (repeat OpNext n) rows) w = Returns rows w).
Proof.
  split; [|split].
  - intros u next rows' w' U C. unfold Rows_Next. rewrite U, C.
    destruct (negb (fst (sqlRows_Next u)) && is_nil (sqlRows_Err (snd (sqlRows_Next u))))
      eqn:K.
    + rewrite run_bind.
      destruct (run wake (call (Rows_release rows)) w) as [[] w1| |]; try discriminate.
      cbn. intros E. inversion E; subst. cbn. auto.
    + cbn. intros E. inversion E; subst. cbn. auto.
  - intros u U C K. unfold Rows_Next. rewrite U, C, K. reflexivity.
  - intros C n. apply Next_closed_repeat. assumption.
Qed.

(** *** Calls through a transaction *)




(** *** Tokens are neither lost nor made *)








(** *** Opening a pool *)


End Proofs.

(** ** The theorems on the scripted client *)



(** C3 on the scripted client: a cursor over two rows on a pool of one
    token, drained and then closed, after which a second query is admitted;
    and the same cursor read twice and left open. *)
Lemma cursor_releases_once_witness :
  Rows_closed rows_ab = false /\
  (exists rows' w',
     run None (Rows_do [OpNext; OpNext; OpNext; OpClose] rows_ab) cap1_out
       = Returns rows' w' /\
     Rows_closed rows' = true /\
     run None (call engaged) cap1_out = Returns tt w' /\
     available cap1_out = 0 /\ available w' = 1 /\
     run None (DB_Query "ab" []) cap1_out = Blocks /\
     exists w'', run None (DB_Query "ab" []) w' = Returns (Some rows_ab, None) w'') /\
  (exists rows' w',
     run None (Rows_do [OpNext; OpNext] rows_ab) cap1_out = Returns rows' w' /\
     Rows_closed rows' = false /\ w' = cap1_out).
Proof.
  split; [reflexivity|]. split.
  - destruct (run None (Rows_do [OpNext; OpNext; OpNext; OpClose] rows_ab) cap1_out)
      as [rows' w'| |] eqn:E; try (vm_compute in E; discriminate).
    destruct (proj1 (@cursor_releases_once Mock None cap1_out rows_ab eq_refl)
                [OpNext; OpNext; OpNext; OpClose] rows' w' E) as (R & S & K).
    assert (C : Rows_closed rows' = true) by (apply K; cbn; auto).
    rewrite C in S. exists rows', w'. split; [reflexivity|]. split; [exact C|].
    split; [exact S|]. split; [reflexivity|].
    vm_compute in E. inversion E.
    split; [reflexivity|]. split; [reflexivity|].
    eexists. vm_compute. reflexivity.
  - destruct (run None (Rows_do [OpNext; OpNext] rows_ab) cap1_out)
      as [rows' w'| |] eqn:E; try (vm_compute in E; discriminate).
    destruct (proj1 (@cursor_releases_once Mock None cap1_out rows_ab eq_refl)
                [OpNext; OpNext] rows' w' E) as (R & S & K).
    assert (C : Rows_closed rows' = false) by (vm_compute in E; inversion E; reflexivity).
    rewrite C in S. exists rows', w'. auto.
Defined.

(** C4 on the scripted client: [Commit], [Rollback], [Commit] on a
    transaction holding the only token of its pool. *)
Lemma transaction_releases_once_witness :
  Tx_trn tx0 = Some 0%nat /\ Tx_closed tx0 = false /\
  exists tx' w',
    run None (Tx_do [OpCommit; OpRollback; OpCommit] tx0) cap1_out = Returns tx' w' /\
    Tx_closed tx' = true /\
    run None (call engaged) cap1_out = Returns tt w' /\
    available w' = 1.
Proof.
  split; [reflexivity|]. split; [reflexivity|].
  destruct (run None (Tx_do [OpCommit; OpRollback; OpCommit] tx0) cap1_out)
    as [tx' w'| |] eqn:E; try (vm_compute in E; discriminate).
  destruct (proj1 (proj2 (@transaction_releases_once Mock None cap1_out tx0 0%nat
                            eq_refl eq_refl))
              OpCommit [OpRollback; OpCommit] tx' w' E) as (C & R & S).
  exists tx', w'. split; [reflexivity|]. split; [exact C|]. split; [exact S|].
  vm_compute in E. inversion E. reflexivity.
Defined.

(** C5 on the scripted client: with the only token out, the statement of
    a transaction runs and the statement of the pool waits; with the token
    in, the latter takes it and returns it. *)
Lemma transaction_statements_do_not_acquire_witness :
  (exists res, run None (Stmt_Exec [] tx_stmt) cap1_out = Returns res cap1_out) /\
  (exists res, run None (Stmt_Query [] tx_stmt) cap1_out = Returns res cap1_out) /\
  (exists res, run None (Stmt_QueryRow [] tx_stmt) cap1_out = Returns res cap1_out) /\
  (exists res w',
     run None (Stmt_Exec [] pool_stmt) cap1 = Returns res w' /\
     hist w' = [TokenTaken; TokenReturned]) /\
  run None (Stmt_Exec [] pool_stmt) cap1_out = Blocks.
Proof.
  pose proof (@transaction_statements_do_not_acquire Mock None cap1_out)
    as (_ & _ & Htx & _ & _ & Hout).
  pose proof (@transaction_statements_do_not_acquire Mock None cap1)
    as (_ & _ & _ & _ & _ & Hin).
  destruct (Htx [] tx_stmt eq_refl) as (E & Q & R).
  split; [|split; [|split; [|split]]].
  - destruct (run None (Stmt_Exec [] tx_stmt) cap1_out) as [res w'| |];
      [subst w'; eexists; reflexivity | contradiction | discriminate].
  - destruct (run None (Stmt_Query [] tx_stmt) cap1_out) as [res w'| |];
      [destruct Q as [-> _]; eexists; reflexivity | contradiction | discriminate].
  - destruct (run None (Stmt_QueryRow [] tx_stmt) cap1_out) as [res w'| |];
      [destruct R as [-> _]; eexists; reflexivity | contradiction | discriminate].
  - destruct (Hin [] pool_stmt "ab"%string eq_refl eq_refl) as [A _].
    destruct A as ((w' & X & H) & _); [vm_compute; lia | vm_compute; reflexivity|].
    do 2 eexists. split; [exact X | exact H].
  - destruct (Hout [] pool_stmt "ab"%string eq_refl eq_refl) as [_ B].
    apply B. reflexivity.
Defined.





(** C8 on the scripted client: a pool opened under 1, the setting changed
    to 5, a second pool opened. *)
Lemma SetConcurrency_leaves_open_pools_witness :
  nth_error (pools (SetConcurrency 5 one_open)) 0 = Some (pool_of 1) /\
  Open "mock" "dsn" (SetConcurrency 5 one_open)
    = ((Some 1%nat, None), mkPackage 5 [pool_of 1; pool_of 5]) /\
  MaxConns (pool_of 1) = 1 /\
  MaxConns (pool_of 5) = 5 /\
  sem (pool_of 5) = Some (mkChan 5 [true; true; true; true; true]).
Proof.
  pose proof (@SetConcurrency_leaves_open_pools Mock 5 one_open) as (_ & Old & New).
  split; [exact (Old 0%nat (pool_of 1) eq_refl)|].
  split; [reflexivity|]. split; [reflexivity|].
  destruct (New "mock"%string "dsn"%string 1%nat (mkPackage 5 [pool_of 1; pool_of 5])
              (pool_of 5) eq_refl eq_refl) as (_ & B & _).
  exact (B ltac:(lia)).
Defined.

(** C9 on the scripted client: with the timeout set [conn] starts a
    timer; once it is switched off a series of calls, one of which waits 4
    for its token, starts none. *)
Lemma usage_timeout_off_witness :
  (exists w',
     run None conn cap1_timed = Returns (mkRelease true (Some 0%nat)) w' /\
     length (timers w') = 1%nat) /\
  (exists w',
     run_calls ((None, CSetUsageTimeout None 50) :: calls_after_off) cap1_timed
       = Returns tt w' /\
     usageTimeout (db w') = 0 /\ length (timers w') = 0%nat /\
     blockReports w' = [(7%nat, 4)]).
Proof.
  split.
  - eexists. split; [vm_compute; reflexivity | reflexivity].
  - destruct (run_calls ((None, CSetUsageTimeout None 50) :: calls_after_off) cap1_timed)
      as [[] w'| |] eqn:E; try (vm_compute in E; discriminate).
    destruct (proj1 (proj2 (@usage_timeout_off Mock)) 50 calls_after_off cap1_timed w'
                eq_refl E) as (U & T).
    exists w'. split; [reflexivity|]. split; [exact U|]. split; [exact T|].
    vm_compute in E. inversion E. reflexivity.
Defined.

(** C10 on the scripted client: the query ["bad"] through a transaction
    and through the pool. *)
Lemma tx_query_returns_shim_witness :
  Tx_trn tx0 = Some 0%nat /\
  fst (@sqlTx_Query Mock "bad"%string [] 0%nat) = (None, Some "syntax error"%string) /\
  run None (Tx_Query "bad" [] tx0) cap1_out
    = Returns ((Some (mkRows None false dummyRelease), Some "syntax error"%string),
               @mkTx Mock (Some 1%nat) false engaged)
              cap1_out /\
  (exists w',
     run None (DB_Query "bad" []) cap1 = Returns (None, Some "syntax error"%string) w').
Proof.
  pose proof (@tx_query_returns_shim Mock None cap1_out "bad"%string [] tx0 0%nat eq_refl)
    as [Shim _].
  pose proof (@tx_query_returns_shim Mock None cap1 "bad"%string [] tx0 0%nat eq_refl)
    as [_ Nil].
  split; [reflexivity|]. split; [reflexivity|]. split; [exact Shim|].
  destruct (run None (DB_Query "bad" []) cap1) as [res w'| |] eqn:E;
    try (vm_compute in E; discriminate).
  rewrite (Nil "syntax error"%string res w' ltac:(vm_compute; lia) eq_refl eq_refl).
  exists w'. reflexivity.
Defined.

(** ** Further properties on the scripted client *)



(** X3 on the scripted client: [conn] under a usage timeout of 50, then
    its closure. *)
Lemma conn_starts_its_timer_witness :
  usageTimeout (db cap1_timed) <> 0 /\
  exists r w' w'',
    run None conn cap1_timed = Returns r w' /\
    timers w' = [mkTimer 50 false] /\
    run None (call r) w' = Returns tt w'' /\
    timers w'' = [mkTimer 50 true].
Proof.
  assert (U : usageTimeout (db cap1_timed) <> 0) by (vm_compute; discriminate).
  split; [exact U|].
  destruct (run None conn cap1_timed) as [r w'| |] eqn:E;
    try (vm_compute in E; discriminate).
  destruct (@conn_starts_its_timer Mock None cap1_timed r w' E U) as (_ & T & _ & K).
  destruct (run None (call r) w') as [[] w''| |] eqn:C;
    try (vm_compute in E; inversion E; subst; vm_compute in C; discriminate).
  exists r, w', w''. split; [reflexivity|]. split; [exact T|]. split; [exact C|].
  exact (proj1 (K [] [] w' w'' None eq_refl T C)).
Defined.

(** X4 on the scripted client: a closure with a timer called twice, an
    engaged closure on a full pool, and one called twice on a pool of two
    tokens both out. *)
Lemma release_closure_single_use_witness :
  (exists r w' w'',
     run None conn unlimited_timed = Returns r w' /\
     run None (call r) w' = Returns tt w'' /\
     run None (call r) w'' = Panics) /\
  run None (call engaged) cap1 = Blocks /\
  (exists w',
     run None (call engaged ;; call engaged) cap2_out = Returns tt w' /\
     available w' = 2 /\ outstanding w' = 0).
Proof.
  pose proof (@release_closure_single_use Mock None) as (Once & Full & Twice).
  split; [|split].
  - destruct (run None conn unlimited_timed) as [r w'| |] eqn:E;
      try (vm_compute in E; discriminate).
    destruct (run None (call r) w') as [[] w''| |] eqn:C;
      try (vm_compute in E; inversion E; subst; vm_compute in C; discriminate).
    exists r, w', w''. split; [reflexivity|]. split; [exact C|].
    assert (T : cancelUsageTimeout r <> None)
      by (vm_compute in E; inversion E; discriminate).
    destruct (run None (call r) w'') as [u w3| |] eqn:C2.
    + exfalso. exact (Once r w' w'' C T None w'' u w3 eq_refl C2).
    + vm_compute in E; inversion E; subst. vm_compute in C; inversion C; subst.
      vm_compute in C2. discriminate.
    + reflexivity.
  - exact (Full engaged cap1 (mkChan 1 [true]) eq_refl eq_refl ltac:(cbn; lia)).
  - destruct (Twice cap2_out (mkChan 2 []) eq_refl ltac:(cbn; lia)) as (w' & R & A & O).
    exists w'. split; [exact R|]. split; [exact A | exact O].
Defined.



(** X7 on the scripted client: two calls on a pool opened under 3. *)
Lemma SetMaxIdleConns_ignored_when_bounded_witness :
  run_calls [(None, CSetMaxIdleConns 10); (None, CSetMaxIdleConns 20)]
            (init_world (pool_of 3))
    = Returns tt (init_world (pool_of 3)) /\
  DB_ (pool_of 3) = @sqlDB_SetMaxIdleConns Mock true 3.
Proof.
  destruct (@SetMaxIdleConns_ignored_when_bounded Mock None true 3 [10; 20]) as [R D].
  split; [exact R | exact (D ltac:(lia))].
Defined.


(** X9 on the scripted client: a query and the close of its cursor on a
    pool of one token under a usage timeout. *)
Lemma handle_lifecycle_restores_tokens_witness :
  wf cap1_timed /\
  exists rows w' res w'',
    run None (DB_Query "ab" []) cap1_timed = Returns (Some rows, None) w' /\
    available w' = 0 /\ pending w' = 1%nat /\
    run None (Rows_Close rows) w' = Returns res w'' /\
    Rows_closed (snd res) = true /\
    available w'' = 1 /\ outstanding w'' = 0 /\ pending w'' = 0%nat.
Proof.
  assert (W : wf cap1_timed) by (vm_compute; lia).
  split; [exact W|].
  destruct (run None (DB_Query "ab" []) cap1_timed) as [[[rows|] [e|]] w'| |] eqn:E;
    try (vm_compute in E; discriminate).
  destruct rows as [[u|] c r]; [|vm_compute in E; discriminate].
  destruct (proj1 (@handle_lifecycle_restores_tokens Mock None cap1_timed W)
              "ab"%string [] _ w' u E eq_refl) as [(w'' & R & A & O & P) _].
  exists (mkRows (Some u) c r), w'. eexists. exists w''.
  split; [reflexivity|].
  split; [vm_compute in E; inversion E; reflexivity|].
  split; [vm_compute in E; inversion E; reflexivity|].
  split; [exact R|].
  split; [reflexivity|].
  split; [exact A|]. split; [exact O | exact P].
Defined.

(** X10 on the scripted client, with the only token out: [Next] on a
    cursor that has a row, on one that stopped on an error, and on a closed
    one. *)
Lemma next_releases_only_at_clean_end_witness :
  run None (Rows_Next rows_ab) cap1_out
    = Returns (true, mkRows (Some ((1%nat, None) : @sqlRows Mock)) false engaged) cap1_out /\
  run None (Rows_Next rows_broken) cap1_out = Returns (false, rows_broken) cap1_out /\
  run None (Rows_do [OpNext; OpNext; OpNext]
                    (mkRows (Some two_rows) true engaged)) cap1_out
    = Returns (mkRows (Some two_rows) true engaged) cap1_out.
Proof.
  split; [|split].
  - exact (proj1 (proj2 (@next_releases_only_at_clean_end Mock None cap1_out rows_ab))
             two_rows eq_refl eq_refl eq_refl).
  - exact (proj1 (proj2 (@next_releases_only_at_clean_end Mock None cap1_out rows_broken))
             (0%nat, Some "broken pipe"%string) eq_refl eq_refl eq_refl).
  - exact (proj2 (proj2 (@next_releases_only_at_clean_end Mock None cap1_out
                           (mkRows (Some two_rows) true engaged)))
             eq_refl 3%nat).
Defined.

